(** * Sprint game session manager (src/index.js)

    A shallow embedding of the sprint-game part of the Express/Socket.IO
    server: the two process-wide maps [sprintGames] and [activePlayers],
    the helper functions [startSprintCountdown], [startSprintGame] and
    [endSprintGame], the three socket handlers ([join-sprint], [tap],
    [disconnect]) and the two sprint HTTP routes.

    Modelling choices, all taken from the source:
    - a game state is a mutable JS object; the registry holds a reference
      to it and the countdown interval closes over the same reference.
      Objects live in [heap] (a list indexed by location), the registry
      maps a game id to a location;
    - [game.players] is a JS [Map]: insertion ordered, [set] on a present
      key keeps its position.  It is an association list;
    - [sprintGames] and [activePlayers] are only used by key: [gmap];
    - timers ([setInterval], [setTimeout]) are pending entries with a due
      time; the environment fires a pending timer once it is due;
    - [db.run] / [db.all] talk to SQLite.  A statement is applied when it
      is issued and whether it succeeds is decided by an oracle;
    - JS numbers that hold counts and milliseconds are integers here ([Z]);
    - the id that POST /api/sprint/start builds from [Date.now()] and
      [Math.random()] is an input of the create event;
    - console output is left out, and so are the [try]/[catch] wrappers:
      on a well-formed payload no handler throws. *)

From stdpp Require Import gmap strings list fin_maps sorting.
From Stdlib Require Import ZArith Lia.

Open Scope string_scope.
Open Scope list_scope.
Open Scope Z_scope.

(** ** JS [Map] with string keys: insertion-ordered association list *)

Section JsMap.
Context {V : Type}.

(** [m.get(k)] *)
Fixpoint map_get (k : string) (m : list (string * V)) : option V :=
  match m with
  | [] => None
  | (k', v) :: m' => if decide (k = k') then Some v else map_get k m'
  end.

(** [m.set(k, v)]: a present key keeps its place, a new key goes last. *)
Fixpoint map_set (k : string) (v : V) (m : list (string * V)) : list (string * V) :=
  match m with
  | [] => [(k, v)]
  | (k', v') :: m' =>
      if decide (k = k') then (k, v) :: m' else (k', v') :: map_set k v m'
  end.

(** [m.delete(k)] *)
Fixpoint map_delete (k : string) (m : list (string * V)) : list (string * V) :=
  match m with
  | [] => []
  | (k', v') :: m' =>
      if decide (k = k') then m' else (k', v') :: map_delete k m'
  end.

(** [Array.from(m.values())] *)
Definition map_values (m : list (string * V)) : list V := m.*2.

(** [m.size] *)
Definition map_size (m : list (string * V)) : Z := Z.of_nat (length m).
End JsMap.

(** ** [Array.prototype.sort(cmp)]

    The sort is stable (ECMAScript 2019; the project asks for Node.js v14
    or higher): elements that compare equal keep their relative order.
    [cmp a b <= 0] keeps [a] in front of [b]. *)

Section JsSort.
Context {A : Type} (cmp : A → A → Z).

Fixpoint sort_insert (x : A) (l : list A) : list A :=
  match l with
  | [] => [x]
  | y :: l' => if cmp x y <=? 0 then x :: y :: l' else y :: sort_insert x l'
  end.

Definition js_sort (l : list A) : list A := foldr sort_insert [] l.
End JsSort.

(** ** Data model *)

(** [game.status]: 'waiting', 'countdown', 'active', 'finished' *)
Inductive game_status := Waiting | Countdown | Active | Finished.

#[global] Instance game_status_eq_dec : EqDecision game_status.
Proof. solve_decision. Defined.

(** The object stored in [game.players] under the socket id. *)
Record player := Player {
  player_id : string;
  username : string;
  taps : Z;
  connected : bool
}.

(** The object stored in [sprintGames]. *)
Record game := Game {
  game_id : string;
  status : game_status;
  players : list (string * player);
  startTime : option Z;
  endTime : option Z;
  countdown : Z;
  gameDuration : Z
}.

(** A row of table [sprint_results] (columns game_id, user_id, taps). *)
Record result_row := ResultRow {
  row_game_id : string;
  user_id : option Z;
  row_taps : Z
}.

(** Payload of the [join-sprint] event.  The handler destructures
    [gameId] and [username]; [caller] stands for whatever identity the
    client holds (the id of a logged-in user), which the handler never
    reads. *)
Record join_data := JoinData {
  jd_gameId : string;
  jd_username : option string;
  caller : option Z
}.

(** Value of [activePlayers]: [{ gameId, username }]. *)
Record player_info := PlayerInfo {
  pi_gameId : string;
  pi_username : option string
}.

(** What Socket.IO is asked to send. *)
Inductive payload :=
| ErrorMsg (message : string)
| PlayersUpdated (roster : list player) (gameStatus : game_status)
| CountdownTick (seconds : Z)
| GameStarted (duration : Z)
| TapUpdate (playerId : string) (name : string) (count : Z)
| GameEnded (results : list player) (winner : option player).

(** [socket.emit] or [io.to(room).emit] *)
Inductive target := ToSocket (socket : string) | ToRoom (room : string).

(** One emission, with the sockets that are members of the target when it
    is sent. *)
Record emission := Emission {
  em_target : target;
  em_recipients : gset string;
  em_payload : payload
}.

(** Pending timer callbacks. *)
Inductive timer :=
| CountdownInterval (gameId : string) (game_ref : nat)
| EndGameTimeout (gameId : string)
| CleanupTimeout (gameId : string).

(** The process state. *)
Record server := Server {
  heap : list game;
  sprintGames : gmap string nat;
  activePlayers : gmap string player_info;
  rooms : gmap string (gset string);
  sprint_results : list result_row;
  db_calls : nat;
  timers : gmap nat (Z * timer);
  next_timer : nat;
  now : Z;
  emitted : list emission
}.

(** Inbound events: HTTP create, the three socket events, the passing of
    time and the firing of a pending timer. *)
Inductive event :=
| PostSprintStart (gameId : string)
| JoinSprint (socket : string) (data : join_data)
| Tap (socket : string) (gameId : string)
| Disconnect (socket : string)
| Elapse (ms : Z)
| Fire (timer_id : nat).

(** Response of [GET /api/sprint/results/:gameId]. *)
Inductive results_response :=
| Results200 (results : list (result_row * option string))
| Results500 (error : string).

(** *** Field updates *)

Definition set_status (s : game_status) (g : game) : game :=
  Game (game_id g) s (players g) (startTime g) (endTime g) (countdown g) (gameDuration g).
Definition set_players (ps : list (string * player)) (g : game) : game :=
  Game (game_id g) (status g) ps (startTime g) (endTime g) (countdown g) (gameDuration g).
Definition set_countdown (c : Z) (g : game) : game :=
  Game (game_id g) (status g) (players g) (startTime g) (endTime g) c (gameDuration g).
Definition set_times (s e : Z) (g : game) : game :=
  Game (game_id g) (status g) (players g) (Some s) (Some e) (countdown g) (gameDuration g).
Definition set_taps (n : Z) (p : player) : player :=
  Player (player_id p) (username p) n (connected p).

Definition with_heap (h : list game) (st : server) : server :=
  Server h (sprintGames st) (activePlayers st) (rooms st) (sprint_results st)
    (db_calls st) (timers st) (next_timer st) (now st) (emitted st).
Definition with_sprintGames (m : gmap string nat) (st : server) : server :=
  Server (heap st) m (activePlayers st) (rooms st) (sprint_results st)
    (db_calls st) (timers st) (next_timer st) (now st) (emitted st).
Definition with_activePlayers (m : gmap string player_info) (st : server) : server :=
  Server (heap st) (sprintGames st) m (rooms st) (sprint_results st)
    (db_calls st) (timers st) (next_timer st) (now st) (emitted st).
Definition with_rooms (r : gmap string (gset string)) (st : server) : server :=
  Server (heap st) (sprintGames st) (activePlayers st) r (sprint_results st)
    (db_calls st) (timers st) (next_timer st) (now st) (emitted st).
Definition with_db (rows : list result_row) (calls : nat) (st : server) : server :=
  Server (heap st) (sprintGames st) (activePlayers st) (rooms st) rows
    calls (timers st) (next_timer st) (now st) (emitted st).
Definition with_timers (t : gmap nat (Z * timer)) (st : server) : server :=
  Server (heap st) (sprintGames st) (activePlayers st) (rooms st) (sprint_results st)
    (db_calls st) t (next_timer st) (now st) (emitted st).
Definition with_now (t : Z) (st : server) : server :=
  Server (heap st) (sprintGames st) (activePlayers st) (rooms st) (sprint_results st)
    (db_calls st) (timers st) (next_timer st) t (emitted st).

(** ** Runtime services *)

(** Members of a Socket.IO room. *)
Definition room_members (st : server) (room : string) : gset string :=
  default ∅ (rooms st !! room).

(** [socket.emit(...)] *)
Definition emit_socket (socket : string) (p : payload) (st : server) : server :=
  Server (heap st) (sprintGames st) (activePlayers st) (rooms st) (sprint_results st)
    (db_calls st) (timers st) (next_timer st) (now st)
    (emitted st ++ [Emission (ToSocket socket) {[socket]} p]).

(** [io.to(room).emit(...)] *)
Definition emit_room (room : string) (p : payload) (st : server) : server :=
  Server (heap st) (sprintGames st) (activePlayers st) (rooms st) (sprint_results st)
    (db_calls st) (timers st) (next_timer st) (now st)
    (emitted st ++ [Emission (ToRoom room) (room_members st room) p]).

(** [socket.join(room)] *)
Definition socket_join (socket room : string) (st : server) : server :=
  with_rooms (<[room := {[socket]} ∪ room_members st room]> (rooms st)) st.

(** Socket.IO removes a closing socket from every room before the
    [disconnect] handler runs. *)
Definition leave_all (socket : string) (st : server) : server :=
  with_rooms ((λ s : gset string, s ∖ {[socket]}) <$> rooms st) st.

(** [setTimeout(cb, delay)] / [setInterval(cb, delay)]: a fresh timer id. *)
Definition schedule (delay : Z) (t : timer) (st : server) : server :=
  Server (heap st) (sprintGames st) (activePlayers st) (rooms st) (sprint_results st)
    (db_calls st) (<[next_timer st := (now st + delay, t)]> (timers st))
    (S (next_timer st)) (now st) (emitted st).

(** [sprintGames.get(gameId)]: the location and the object behind it. *)
Definition get_game (st : server) (gameId : string) : option (nat * game) :=
  l ← sprintGames st !! gameId; g ← heap st !! l; Some (l, g).

(** In-place update of the object at a location. *)
Definition update_game (l : nat) (f : game → game) (st : server) : server :=
  with_heap (alter f l (heap st)) st.

Section Server.
(** [db_run_ok n]: does the [n]-th statement handed to [db.run] succeed? *)
Context (db_run_ok : nat → bool).

(** [db.run('INSERT INTO sprint_results (game_id, user_id, taps) ...')].
    The completion callback only logs a failure. *)
Definition db_run_insert (r : result_row) (st : server) : server :=
  with_db (if db_run_ok (db_calls st) then sprint_results st ++ [r]
           else sprint_results st)
          (S (db_calls st)) st.

(** *** POST /api/sprint/start *)
Definition new_game (gameId : string) : game :=
  Game gameId Waiting [] None None 5 15000.

(** [sprintGames.set(gameId, gameState)] with a new object; [gameId] is the
    id the route generated. *)
Definition post_sprint_start (gameId : string) (st : server) : server :=
  with_sprintGames (<[gameId := length (heap st)]> (sprintGames st))
    (with_heap (heap st ++ [new_game gameId]) st).

(** *** Helper functions *)

Definition startSprintCountdown (gameId : string) (st : server) : server :=
  match get_game st gameId with
  | None => st
  | Some (l, _) =>
      schedule 1000 (CountdownInterval gameId l)
        (update_game l (λ g, set_countdown 5 (set_status Countdown g)) st)
  end.

Definition startSprintGame (gameId : string) (st : server) : server :=
  match get_game st gameId with
  | None => st
  | Some (l, g) =>
      let st1 :=
        update_game l
          (λ g, set_times (now st) (now st + gameDuration g) (set_status Active g)) st in
      let st2 := emit_room gameId (GameStarted (gameDuration g)) st1 in
      schedule (gameDuration g) (EndGameTimeout gameId) st2
  end.

(** The comparator [(a, b) => b.taps - a.taps]. *)
Definition by_taps_desc (a b : player) : Z := taps b - taps a.

Definition endSprintGame (gameId : string) (st : server) : server :=
  match get_game st gameId with
  | None => st
  | Some (l, g) =>
      let st1 := update_game l (set_status Finished) st in
      let ps := map_values (players g) in
      let st2 :=
        foldl (λ s p, db_run_insert (ResultRow gameId None (taps p)) s) st1 ps in
      let sortedPlayers := js_sort by_taps_desc ps in
      let winner := head sortedPlayers in
      let st3 := emit_room gameId (GameEnded sortedPlayers winner) st2 in
      schedule 30000 (CleanupTimeout gameId) st3
  end.

(** The callback of [setInterval] in [startSprintCountdown]; [k] is the
    id of the interval, [l] the game object the closure captured. *)
Definition countdown_tick (k : nat) (gameId : string) (l : nat) (st : server) : server :=
  match heap st !! l with
  | None => st
  | Some g =>
      let st1 := emit_room gameId (CountdownTick (countdown g)) st in
      let st2 := update_game l (set_countdown (countdown g - 1)) st1 in
      if countdown g - 1 <? 0
      then startSprintGame gameId (with_timers (delete k (timers st2)) st2)
      else with_timers (<[k := (now st + 1000, CountdownInterval gameId l)]> (timers st2)) st2
  end.

(** *** Socket handlers *)

(** [username || `Player_${socket.id.substr(0, 6)}`] *)
Definition display_name (socket : string) (name : option string) : string :=
  match name with
  | Some n => if decide (n = "") then "Player_" +:+ String.substring 0%nat 6%nat socket else n
  | None => "Player_" +:+ String.substring 0%nat 6%nat socket
  end.

Definition join_sprint (socket : string) (data : join_data) (st : server) : server :=
  match get_game st (jd_gameId data) with
  | None => emit_socket socket (ErrorMsg "Game not found") st
  | Some (l, g) =>
      if bool_decide (status g ≠ Waiting ∧ status g ≠ Countdown)
      then emit_socket socket (ErrorMsg "Game already started or finished") st
      else
        let p := Player socket (display_name socket (jd_username data)) 0 true in
        let ps := map_set socket p (players g) in
        let st1 := update_game l (set_players ps) st in
        let st2 :=
          with_activePlayers
            (<[socket := PlayerInfo (jd_gameId data) (jd_username data)]> (activePlayers st1))
            st1 in
        let st3 := socket_join socket (jd_gameId data) st2 in
        let st4 :=
          emit_room (jd_gameId data) (PlayersUpdated (map_values ps) (status g)) st3 in
        if bool_decide (1 ≤ map_size ps ∧ status g = Waiting)
        then startSprintCountdown (jd_gameId data) st4
        else st4
  end.

Definition tap (socket gameId : string) (st : server) : server :=
  match get_game st gameId with
  | None => st
  | Some (l, g) =>
      if bool_decide (status g ≠ Active) then st
      else
        match map_get socket (players g) with
        | None => st
        | Some p =>
            let p' := set_taps (taps p + 1) p in
            let st1 := update_game l (set_players (map_set socket p' (players g))) st in
            emit_room gameId (TapUpdate socket (username p') (taps p')) st1
        end
  end.

Definition disconnect (socket : string) (st : server) : server :=
  let st0 := leave_all socket st in
  match activePlayers st0 !! socket with
  | None => st0
  | Some info =>
      match get_game st0 (pi_gameId info) with
      | None => st0
      | Some (l, g) =>
          let ps := map_delete socket (players g) in
          let st1 := update_game l (set_players ps) st0 in
          let st2 := with_activePlayers (delete socket (activePlayers st1)) st1 in
          emit_room (pi_gameId info) (PlayersUpdated (map_values ps) (status g)) st2
      end
  end.

(** *** Timers *)

Definition run_timer (k : nat) (t : timer) (st : server) : server :=
  match t with
  | CountdownInterval gameId l => countdown_tick k gameId l st
  | EndGameTimeout gameId =>
      endSprintGame gameId (with_timers (delete k (timers st)) st)
  | CleanupTimeout gameId =>
      with_sprintGames (delete gameId (sprintGames st))
        (with_timers (delete k (timers st)) st)
  end.

(** A timer runs no earlier than its due time. *)
Definition fire (k : nat) (st : server) : server :=
  match timers st !! k with
  | None => st
  | Some (due, t) => if due <=? now st then run_timer k t st else st
  end.

(** *** The event loop *)

Definition step (st : server) (e : event) : server :=
  match e with
  | PostSprintStart gameId => post_sprint_start gameId st
  | JoinSprint socket data => join_sprint socket data st
  | Tap socket gameId => tap socket gameId st
  | Disconnect socket => disconnect socket st
  | Elapse ms => with_now (now st + Z.max 0 ms) st
  | Fire k => fire k st
  end.

Definition run (st : server) (evs : list event) : server := foldl step st evs.

(** *** GET /api/sprint/results/:gameId *)

(** [... WHERE sr.game_id = ? ORDER BY sr.taps DESC], with the
    [LEFT JOIN users] supplying the username of a non-null [user_id]. *)
Definition by_row_taps_desc (a b : result_row * option string) : Z :=
  row_taps b.1 - row_taps a.1.

Definition select_results (users : gmap Z string) (gameId : string)
    (rows : list result_row) : list (result_row * option string) :=
  js_sort by_row_taps_desc
    ((λ r, (r, user_id r ≫= λ u, users !! u))
       <$> filter (λ r, row_game_id r = gameId) rows).

Definition get_results (db_all_ok : bool) (users : gmap Z string)
    (gameId : string) (st : server) : results_response :=
  if db_all_ok then Results200 (select_results users gameId (sprint_results st))
  else Results500 "Failed to fetch results".
End Server.

(** The state of a freshly started process at time [t0]. *)
Definition init (t0 : Z) : server :=
  Server [] ∅ ∅ ∅ [] 0 ∅ 0 t0 [].

(** The store never fails. *)
Definition db_fine : nat → bool := λ _, true.

(** ** A sample session

    One game "g": alice joins anonymously, bob joins holding the identity
    of user 7; the countdown runs out, alice taps twice and bob once, the
    window closes and thirty seconds later the game is dropped. *)

Definition demo_joins : list event :=
  [PostSprintStart "g";
   JoinSprint "alice" (JoinData "g" (Some "alice") None);
   JoinSprint "bob" (JoinData "g" (Some "bob") (Some 7))].

Definition demo_ticks : list event :=
  [Elapse 1000; Fire 0; Elapse 1000; Fire 0; Elapse 1000; Fire 0;
   Elapse 1000; Fire 0; Elapse 1000; Fire 0; Elapse 1000; Fire 0].

Definition demo_taps : list event :=
  [Tap "bob" "g"; Tap "alice" "g"; Tap "alice" "g"].

Definition demo_countdown : server := run db_fine (init 0) demo_joins.
Definition demo_active : server := run db_fine demo_countdown demo_ticks.
Definition demo_tapped : server := run db_fine demo_active demo_taps.
Definition demo_finished : server := run db_fine demo_tapped [Elapse 15000; Fire 1].
Definition demo_evicted : server := run db_fine demo_finished [Elapse 30000; Fire 2].

Definition demo_alice (n : Z) : player := Player "alice" "alice" n true.
Definition demo_bob (n : Z) : player := Player "bob" "bob" n true.

(** The game object of the sample session while it is active. *)
Definition demo_game (a b : Z) : game :=
  Game "g" Active [("alice", demo_alice a); ("bob", demo_bob b)]
    (Some 6000) (Some 21000) (-1) 15000.

(** One socket joins two games. *)
Definition demo_two_games : server :=
  run db_fine (init 0)
    [PostSprintStart "g1"; PostSprintStart "g2";
     JoinSprint "alice" (JoinData "g1" (Some "alice") None);
     JoinSprint "alice" (JoinData "g2" (Some "alice") None)].

(** ** Vocabulary of the statements *)

(** What a batch of INSERTs leaves in the table when the [n]-th statement
    of the process is the first of the batch. *)
Fixpoint written (ok : nat → bool) (n : nat) (rs : list result_row) : list result_row :=
  match rs with
  | [] => []
  | r :: rs' => (if ok n then [r] else []) ++ written ok (S n) rs'
  end.

(** The part of a game the timers work on. *)
Definition phase (g : game) : game_status * Z * Z :=
  (status g, countdown g, gameDuration g).

(** A countdown during which sockets leave: before each tick of interval
    [k] the sockets of one batch disconnect. *)
Fixpoint countdown_run (k : nat) (quits : list (list string)) : list event :=
  match quits with
  | [] => []
  | q :: qs => (Disconnect <$> q) ++ [Elapse 1000; Fire k] ++ countdown_run k qs
  end.

(** The game object a tap of [socket] on [gameId] would count for: the
    game is registered, active, and the socket is one of its players. *)
Definition tap_target (st : server) (socket gameId : string) : option nat :=
  match get_game st gameId with
  | Some (l, g) =>
      if decide (status g = Active)
      then match map_get socket (players g) with
           | Some _ => Some l
           | None => None
           end
      else None
  | None => None
  end.

(** Does event [e], arriving in state [st], count as a tap of [socket] for
    the game object at [l]? *)
Definition hit (st : server) (e : event) (socket : string) (l : nat) : Z :=
  match e with
  | Tap s gameId =>
      if decide (s = socket ∧ tap_target st s gameId = Some l) then 1 else 0
  | _ => 0
  end.

(** Number of accepted taps of [socket] for the game object at [l] along a
    trace that starts in [st]. *)
Fixpoint accepted_taps (ok : nat → bool) (st : server) (evs : list event)
    (socket : string) (l : nat) : Z :=
  match evs with
  | [] => 0
  | e :: evs' => hit st e socket l + accepted_taps ok (step ok st e) evs' socket l
  end.

(** How one event may move the status of a game object. *)
Definition status_moves (g g' : game) : Prop :=
  status g' = status g
  ∨ (status g = Waiting ∧ status g' = Countdown)
  ∨ status g' = Active
  ∨ status g' = Finished.

(** How one event may change the players map of the object at [l]. *)
Inductive players_move (st : server) : event → nat → game → game → Prop :=
| pm_same e l g g' :
    players g' = players g →
    (∀ socket gameId, e = Tap socket gameId → tap_target st socket gameId ≠ Some l) →
    players_move st e l g g'
| pm_join socket data l g g' :
    get_game st (jd_gameId data) = Some (l, g) →
    status g = Waiting ∨ status g = Countdown →
    players g' =
      map_set socket (Player socket (display_name socket (jd_username data)) 0 true)
        (players g) →
    players_move st (JoinSprint socket data) l g g'
| pm_tap socket gameId l g g' p :
    get_game st gameId = Some (l, g) →
    status g = Active →
    map_get socket (players g) = Some p →
    players g' = map_set socket (set_taps (taps p + 1) p) (players g) →
    players_move st (Tap socket gameId) l g g'
| pm_disconnect socket l g g' :
    players g' = map_delete socket (players g) →
    players_move st (Disconnect socket) l g g'.

(** The create requests of a trace use ids that were never used before. *)
Fixpoint fresh_ids (used : gset string) (evs : list event) : Prop :=
  match evs with
  | [] => True
  | PostSprintStart gameId :: evs' =>
      (gameId ∉ used) ∧ fresh_ids ({[gameId]} ∪ used) evs'
  | _ :: evs' => fresh_ids used evs'
  end.

(** Every tracked connection whose game is still registered is a player
    of that game. *)
Definition tracked_are_members (st : server) : Prop :=
  ∀ c info l g,
    activePlayers st !! c = Some info →
    get_game st (pi_gameId info) = Some (l, g) →
    is_Some (map_get c (players g)).

(** [c socket l] is the number of taps accepted so far from [socket] for
    the game object at [l]: it agrees with every stored tap count, and it
    is zero for objects that cannot have been tapped yet. *)
Definition count_inv (st : server) (c : string → nat → Z) : Prop :=
  ∀ l,
    match heap st !! l with
    | None => ∀ socket, c socket l = 0
    | Some g =>
        NoDup (players g).*1
        ∧ (status g = Waiting ∨ status g = Countdown → ∀ socket, c socket l = 0)
        ∧ (∀ socket p, map_get socket (players g) = Some p → taps p = c socket l)
    end.

(** Ids handed out by a create request. *)
Definition created (e : event) : gset string :=
  match e with
  | PostSprintStart gameId => {[gameId]}
  | _ => ∅
  end.

(** The registry only holds ids from [used] and live locations, the tracker
    only points to ids from [used], and tracked connections are members. *)
Definition tracker_inv (used : gset string) (st : server) : Prop :=
  (∀ gameId l, sprintGames st !! gameId = Some l →
               gameId ∈ used ∧ (l < length (heap st))%nat)
  ∧ (∀ c info, activePlayers st !! c = Some info → pi_gameId info ∈ used)
  ∧ tracked_are_members st.

(** Events that come from a socket. *)
Definition client_event (e : event) : bool :=
  match e with
  | JoinSprint _ _ | Tap _ _ | Disconnect _ => true
  | _ => false
  end.

Definition is_disconnect (e : event) : bool :=
  match e with
  | Disconnect _ => true
  | _ => false
  end.

(** ** The handlers by cases

    For each handler, the states it can return, one constructor per path
    through its code. *)

Inductive disconnect_spec (socket : string) (st : server) : server → Prop :=
| disconnect_untracked :
    activePlayers st !! socket = None →
    disconnect_spec socket st (leave_all socket st)
| disconnect_stale info :
    activePlayers st !! socket = Some info →
    get_game st (pi_gameId info) = None →
    disconnect_spec socket st (leave_all socket st)
| disconnect_member info l g :
    activePlayers st !! socket = Some info →
    get_game st (pi_gameId info) = Some (l, g) →
    disconnect_spec socket st
      (emit_room (pi_gameId info)
         (PlayersUpdated (map_values (map_delete socket (players g))) (status g))
         (with_activePlayers (delete socket (activePlayers st))
            (update_game l (set_players (map_delete socket (players g)))
               (leave_all socket st)))).

Inductive tap_spec (socket gameId : string) (st : server) : server → Prop :=
| tap_ignored :
    (∀ l g, get_game st gameId = Some (l, g) →
            status g ≠ Active ∨ map_get socket (players g) = None) →
    tap_spec socket gameId st st
| tap_counted l g p :
    get_game st gameId = Some (l, g) →
    status g = Active →
    map_get socket (players g) = Some p →
    tap_spec socket gameId st
      (emit_room gameId (TapUpdate socket (username p) (taps p + 1))
         (update_game l
            (set_players (map_set socket (set_taps (taps p + 1) p) (players g))) st)).

Inductive join_spec (socket : string) (data : join_data) (st : server) : server → Prop :=
| join_unknown :
    get_game st (jd_gameId data) = None →
    join_spec socket data st (emit_socket socket (ErrorMsg "Game not found") st)
| join_late l g :
    get_game st (jd_gameId data) = Some (l, g) →
    status g = Active ∨ status g = Finished →
    join_spec socket data st
      (emit_socket socket (ErrorMsg "Game already started or finished") st)
| join_admitted l g :
    get_game st (jd_gameId data) = Some (l, g) →
    status g = Waiting ∨ status g = Countdown →
    let ps :=
      map_set socket (Player socket (display_name socket (jd_username data)) 0 true)
        (players g) in
    let st4 :=
      emit_room (jd_gameId data) (PlayersUpdated (map_values ps) (status g))
        (socket_join socket (jd_gameId data)
           (with_activePlayers
              (<[socket := PlayerInfo (jd_gameId data) (jd_username data)]>
                 (activePlayers st))
              (update_game l (set_players ps) st))) in
    join_spec socket data st
      (if decide (status g = Waiting)
       then schedule 1000 (CountdownInterval (jd_gameId data) l)
              (update_game l (λ g, set_countdown 5 (set_status Countdown g)) st4)
       else st4).

Inductive tick_spec (k : nat) (gameId : string) (l : nat) (st : server) : server → Prop :=
| tick_dangling :
    heap st !! l = None → tick_spec k gameId l st st
| tick_continue g :
    heap st !! l = Some g →
    1 ≤ countdown g →
    tick_spec k gameId l st
      (with_timers (<[k := (now st + 1000, CountdownInterval gameId l)]> (timers st))
         (update_game l (set_countdown (countdown g - 1))
            (emit_room gameId (CountdownTick (countdown g)) st)))
| tick_last g :
    heap st !! l = Some g →
    countdown g < 1 →
    tick_spec k gameId l st
      (startSprintGame gameId
         (with_timers (delete k (timers st))
            (update_game l (set_countdown (countdown g - 1))
               (emit_room gameId (CountdownTick (countdown g)) st)))).

Inductive fire_spec (ok : nat → bool) (k : nat) (st : server) : server → Prop :=
| fire_idle :
    (∀ due t, timers st !! k = Some (due, t) → now st < due) →
    fire_spec ok k st st
| fire_due due t :
    timers st !! k = Some (due, t) →
    due ≤ now st →
    fire_spec ok k st (run_timer ok k t st).

(** ** Further vocabulary *)

(** A player record as the join handler builds it and the tap handler
    updates it, stored under [key]. *)
Definition player_ok (key : string) (p : player) : Prop :=
  player_id p = key ∧ 0 ≤ taps p ∧ connected p = true ∧ username p ≠ "".

Definition roster_ok (g : game) : Prop :=
  NoDup (players g).*1 ∧ ∀ key p, (key, p) ∈ players g → player_ok key p.


(** The game objects an event is addressed to: the game a join or tap
    names, the game the tracker holds for a disconnecting socket, the
    object a countdown interval captured and the game its id names, the
    game an end-of-window timer names. *)
Definition touched (st : server) (e : event) : list nat :=
  match e with
  | PostSprintStart _ => []
  | JoinSprint _ data => option_list (fst <$> get_game st (jd_gameId data))
  | Tap _ gameId => option_list (fst <$> get_game st gameId)
  | Disconnect socket =>
      option_list (info ← activePlayers st !! socket;
                   fst <$> get_game st (pi_gameId info))
  | Elapse _ => []
  | Fire k =>
      match timers st !! k with
      | Some (_, CountdownInterval gameId l) =>
          l :: option_list (fst <$> get_game st gameId)
      | Some (_, EndGameTimeout gameId) => option_list (fst <$> get_game st gameId)
      | _ => []
      end
  end.


(** [n] ticks of interval [k], one second apart. *)
Definition tick_events (k : nat) (n : nat) : list event :=
  concat (replicate n [Elapse 1000; Fire k]).

(** The [n] values [c, c - 1, ...]. *)
Definition countdown_from (c : Z) (n : nat) : list Z :=
  (λ i, c - Z.of_nat i) <$> seq 0 n.
#[global] Arguments countdown_from : simpl never.


(** ** The life cycle of a game *)

Definition status_rank (s : game_status) : nat :=
  match s with
  | Waiting => 0
  | Countdown => 1
  | Active => 2
  | Finished => 3
  end.

(** One step of the life cycle: the status stays, or moves to the next
    phase. *)
Definition status_next (g g' : game) : Prop :=
  status g' = status g
  ∨ (status g = Waiting ∧ status g' = Countdown)
  ∨ (status g = Countdown ∧ status g' = Active)
  ∨ (status g = Active ∧ status g' = Finished).

(** The game a timer works for, and the phase in which it is pending. *)
Definition timer_gid (t : timer) : string :=
  match t with
  | CountdownInterval gameId _ => gameId
  | EndGameTimeout gameId => gameId
  | CleanupTimeout gameId => gameId
  end.

Definition timer_status (t : timer) : game_status :=
  match t with
  | CountdownInterval _ _ => Countdown
  | EndGameTimeout _ => Active
  | CleanupTimeout _ => Finished
  end.

Definition timer_fits (t : timer) (due : Z) (l : nat) (g : game) : Prop :=
  match t with
  | CountdownInterval _ l' => l' = l ∧ 0 ≤ countdown g
  | EndGameTimeout _ => endTime g = Some due
  | CleanupTimeout _ => True
  end.

(** The fields of a game object that the timers maintain. *)
Definition game_ok (g : game) : Prop :=
  gameDuration g = 15000
  ∧ -1 ≤ countdown g ≤ 5
  ∧ match status g with
    | Waiting | Countdown => startTime g = None ∧ endTime g = None
    | Active | Finished => ∃ s, startTime g = Some s ∧ endTime g = Some (s + 15000)
    end.

(** What holds in every state of a run whose create requests never repeat
    an id ([used] are the ids handed out so far): registered ids lead to
    the object created for them; every pending timer belongs to a
    registered game in the matching phase, and a game has at most one
    pending timer; rows exist only for finished games. *)
Record lifecycle (used : gset string) (st : server) : Prop := Lifecycle {
  lc_registry :
    ∀ gameId l, sprintGames st !! gameId = Some l →
      gameId ∈ used ∧ ∃ g, heap st !! l = Some g ∧ game_id g = gameId;
  lc_objects : ∀ l g, heap st !! l = Some g → game_ok g;
  lc_timer_ids : ∀ k x, timers st !! k = Some x → (k < next_timer st)%nat;
  lc_timer :
    ∀ k due t, timers st !! k = Some (due, t) →
      ∃ l g, get_game st (timer_gid t) = Some (l, g)
             ∧ status g = timer_status t ∧ timer_fits t due l g;
  lc_timer_unique :
    ∀ k k' due due' t t',
      timers st !! k = Some (due, t) → timers st !! k' = Some (due', t') →
      timer_gid t = timer_gid t' → k = k';
  lc_rows :
    ∀ r, r ∈ sprint_results st →
      row_game_id r ∈ used
      ∧ ∀ l g, get_game st (row_game_id r) = Some (l, g) → status g = Finished
}.


(** Whoever receives the broadcasts of a game (the members of the room
    named after it) is listed in the players map of that game, and rooms
    only exist for ids that were handed out. *)
Definition audience_ok (used : gset string) (st : server) : Prop :=
  ∀ gameId s, s ∈ room_members st gameId →
    gameId ∈ used
    ∧ ∀ l g, get_game st gameId = Some (l, g) → is_Some (map_get s (players g)).

(** * Properties *)

(** ** The insertion-ordered map *)

Section JsMapFacts.
Context {V : Type}.
Implicit Types (m : list (string * V)) (k : string) (v : V).

Lemma map_get_set_eq k v m : map_get k (map_set k v m) = Some v.
Proof.
  induction m as [|[k' v'] m IH]; simpl.
  - by rewrite decide_True.
  - destruct (decide (k = k')) as [->|Hne]; simpl.
    + by rewrite decide_True.
    + by rewrite decide_False.
Qed.

Lemma map_get_set_ne k k' v m : k ≠ k' → map_get k' (map_set k v m) = map_get k' m.
Proof.
  intros Hne. induction m as [|[k0 v0] m IH]; simpl.
  - by rewrite decide_False.
  - destruct (decide (k = k0)) as [->|Hk]; simpl.
    + by rewrite !decide_False.
    + by rewrite IH.
Qed.

Lemma map_get_None k m : map_get k m = None ↔ k ∉ m.*1.
Proof.
  induction m as [|[k' v'] m IH]; simpl.
  - split; [intros _; apply not_elem_of_nil | done].
  - rewrite not_elem_of_cons. destruct (decide (k = k')) as [->|Hne].
    + split; [done | intros [Hk _]; by destruct Hk].
    + rewrite IH. tauto.
Qed.

Lemma map_get_Some_elem k v m : map_get k m = Some v → (k, v) ∈ m.
Proof.
  induction m as [|[k' v'] m IH]; simpl; [done|].
  destruct (decide (k = k')) as [->|]; intros H.
  - injection H as ->. left.
  - right. auto.
Qed.

Lemma map_get_elem k v m : NoDup m.*1 → (k, v) ∈ m → map_get k m = Some v.
Proof.
  induction m as [|[k' v'] m IH]; simpl.
  - intros _ H. by apply elem_of_nil in H.
  - rewrite NoDup_cons. intros [Hk Hnd] [Heq|Hin]%elem_of_cons.
    + injection Heq as -> ->. by rewrite decide_True.
    + rewrite decide_False; [auto|].
      intros ->. apply Hk. apply list_elem_of_fmap. by exists (k', v).
Qed.

(** A new key is appended: later joins come later in iteration order. *)
Lemma map_set_new k v m : map_get k m = None → map_set k v m = m ++ [(k, v)].
Proof.
  induction m as [|[k' v'] m IH]; simpl; [done|].
  destruct (decide (k = k')); [done|]. intros H. by rewrite IH.
Qed.

(** [set] never changes the order of the keys already present. *)
Lemma map_set_keys k v m :
  (map_set k v m).*1 = match map_get k m with Some _ => m.*1 | None => m.*1 ++ [k] end.
Proof.
  induction m as [|[k' v'] m IH]; csimpl; [done|].
  destruct (decide (k = k')) as [->|]; csimpl; [done|].
  rewrite IH. by destruct (map_get k m).
Qed.

Lemma map_set_NoDup k v m : NoDup m.*1 → NoDup (map_set k v m).*1.
Proof.
  intros Hnd. rewrite map_set_keys. destruct (map_get k m) eqn:Hg; [done|].
  apply NoDup_app. split_and!; [done| |apply NoDup_singleton].
  intros x Hx ->%list_elem_of_singleton. by apply map_get_None in Hg.
Qed.

Lemma map_delete_sublist k m : map_delete k m `sublist_of` m.
Proof.
  induction m as [|[k' v'] m IH]; simpl; [done|].
  destruct (decide (k = k')).
  - by apply sublist_cons.
  - by apply sublist_skip.
Qed.

Lemma map_delete_NoDup k m : NoDup m.*1 → NoDup (map_delete k m).*1.
Proof.
  intros Hnd. apply (sublist_NoDup _ m.*1); [done|].
  apply fmap_sublist, map_delete_sublist.
Qed.

Lemma map_get_delete_eq k m : NoDup m.*1 → map_get k (map_delete k m) = None.
Proof.
  induction m as [|[k' v'] m IH]; simpl; [done|].
  rewrite NoDup_cons. intros [Hk Hnd].
  destruct (decide (k = k')) as [->|]; simpl.
  - by apply map_get_None.
  - rewrite decide_False; auto.
Qed.

Lemma map_get_delete_ne k k' m : k ≠ k' → map_get k' (map_delete k m) = map_get k' m.
Proof.
  intros Hne. induction m as [|[k0 v0] m IH]; simpl; [done|].
  destruct (decide (k = k0)) as [->|]; simpl.
  - by rewrite decide_False.
  - by rewrite IH.
Qed.

Lemma map_delete_absent k m : map_get k m = None → map_delete k m = m.
Proof.
  induction m as [|[k' v'] m IH]; simpl; [done|].
  destruct (decide (k = k')); [done|]. intros H. by rewrite IH.
Qed.
End JsMapFacts.

(** ** The stable sort *)

Section JsSortFacts.
Context {A : Type} (cmp : A → A → Z).

Lemma sort_insert_perm x l : sort_insert cmp x l ≡ₚ x :: l.
Proof.
  induction l as [|y l IH]; simpl; [done|].
  destruct (cmp x y <=? 0); [done|].
  rewrite IH. apply Permutation_swap.
Qed.

Lemma js_sort_perm l : js_sort cmp l ≡ₚ l.
Proof.
  induction l as [|x l IH]; simpl; [done|].
  unfold js_sort in *. simpl. by rewrite sort_insert_perm, IH.
Qed.

Lemma js_sort_length l : length (js_sort cmp l) = length l.
Proof. apply Permutation_length, js_sort_perm. Qed.

Lemma js_sort_nil_inv l : js_sort cmp l = [] → l = [].
Proof.
  intros H. apply (f_equal length) in H. rewrite js_sort_length in H.
  by destruct l.
Qed.

(** Elements of one tie class keep the order they had in the input. *)
Section Stable.
Context (P : A → Prop) `{!∀ x, Decision (P x)}.
Hypothesis tie : ∀ a b, P a → P b → cmp a b ≤ 0.

Lemma sort_insert_stable x l :
  filter P (sort_insert cmp x l) = filter P (x :: l).
Proof.
  induction l as [|y l IH]; simpl; [done|].
  destruct (Z.leb_spec (cmp x y) 0) as [Hle|Hgt]; [done|].
  rewrite filter_cons, IH, !filter_cons.
  destruct (decide (P y)) as [Hy|], (decide (P x)) as [Hx|]; try done.
  pose proof (tie x y Hx Hy). lia.
Qed.

Lemma js_sort_stable l : filter P (js_sort cmp l) = filter P l.
Proof.
  induction l as [|x l IH]; [done|].
  unfold js_sort in *. simpl.
  by rewrite sort_insert_stable, !filter_cons, IH.
Qed.
End Stable.

(** With a comparator that is a total preorder the result is ordered. *)
Section Ordered.
Hypothesis cmp_total : ∀ a b, ¬ cmp a b ≤ 0 → cmp b a ≤ 0.
Hypothesis cmp_trans : ∀ a b c, cmp a b ≤ 0 → cmp b c ≤ 0 → cmp a c ≤ 0.

Lemma sort_insert_sorted x l :
  StronglySorted (λ a b, cmp a b ≤ 0) l →
  StronglySorted (λ a b, cmp a b ≤ 0) (sort_insert cmp x l).
Proof.
  induction 1 as [|y l Hs IH Hall]; simpl.
  - repeat constructor.
  - destruct (Z.leb_spec (cmp x y) 0) as [Hle|Hgt].
    + constructor; [by constructor|].
      constructor; [done|].
      eapply Forall_impl; [exact Hall|]. intros z Hz. by eapply cmp_trans.
    + constructor; [done|].
      rewrite sort_insert_perm. constructor; [|done].
      apply cmp_total. lia.
Qed.

Lemma js_sort_sorted l : StronglySorted (λ a b, cmp a b ≤ 0) (js_sort cmp l).
Proof.
  induction l as [|x l IH]; [constructor|].
  unfold js_sort in *. simpl. by apply sort_insert_sorted.
Qed.
End Ordered.
End JsSortFacts.

(** ** Ranking by taps *)

Lemma by_taps_desc_total a b : ¬ by_taps_desc a b ≤ 0 → by_taps_desc b a ≤ 0.
Proof. unfold by_taps_desc. lia. Qed.

Lemma by_taps_desc_trans a b c :
  by_taps_desc a b ≤ 0 → by_taps_desc b c ≤ 0 → by_taps_desc a c ≤ 0.
Proof. unfold by_taps_desc. lia. Qed.

Lemma StronglySorted_weaken {A} (R R' : A → A → Prop) (l : list A) :
  (∀ a b, R a b → R' a b) → StronglySorted R l → StronglySorted R' l.
Proof.
  intros HR. induction 1 as [|x l Hs IH Hall]; constructor; [done|].
  eapply Forall_impl; [exact Hall|]. intros y. apply HR.
Qed.

Lemma ranking_descending (ps : list player) :
  StronglySorted (λ a b, taps b ≤ taps a) (js_sort by_taps_desc ps).
Proof.
  eapply StronglySorted_weaken;
    [|apply (js_sort_sorted by_taps_desc by_taps_desc_total by_taps_desc_trans)].
  unfold by_taps_desc. intros a b. simpl. lia.
Qed.

Lemma ranking_stable (t : Z) (ps : list player) :
  filter (λ p, taps p = t) (js_sort by_taps_desc ps) = filter (λ p, taps p = t) ps.
Proof.
  apply js_sort_stable. unfold by_taps_desc. intros a b Ha Hb. lia.
Qed.

(** ** Heap and registry lookups *)

Lemma get_game_Some st gameId l g :
  get_game st gameId = Some (l, g) ↔
  sprintGames st !! gameId = Some l ∧ heap st !! l = Some g.
Proof.
  unfold get_game. destruct (sprintGames st !! gameId) as [l'|]; simpl.
  - destruct (heap st !! l') as [g'|] eqn:Hg; simpl.
    + split; [intros [= <- <-]; done | intros [[= ->] H]; congruence].
    + split; [done | intros [[= ->] H]; congruence].
  - split; [done | intros [? _]; done].
Qed.

Lemma alter_at {A} (f : A → A) (l : nat) (h : list A) (x : A) :
  h !! l = Some x → alter f l h = <[l := f x]> h.
Proof.
  intros H. apply list_eq. intros i. destruct (decide (i = l)) as [->|Hne].
  - rewrite list_lookup_alter_eq, H. simpl.
    by rewrite list_lookup_insert_eq by (by eapply lookup_lt_Some).
  - by rewrite list_lookup_alter_ne, list_lookup_insert_ne.
Qed.

Lemma alter_alter_at {A} (f1 f2 : A → A) (l : nat) (h : list A) (x : A) :
  h !! l = Some x → alter f2 l (alter f1 l h) = <[l := f2 (f1 x)]> h.
Proof.
  intros H. rewrite (alter_at f1 l h x H).
  rewrite (alter_at f2 l _ (f1 x)).
  - by rewrite list_insert_insert_eq.
  - apply list_lookup_insert_eq. by eapply lookup_lt_Some.
Qed.

(** ** Persisting the results *)

Lemma written_all ok n rs : (∀ i, ok i = true) → written ok n rs = rs.
Proof.
  intros Hok. revert n. induction rs as [|r rs IH]; intros n; simpl; [done|].
  by rewrite Hok, IH.
Qed.

Lemma written_sublist ok n rs : written ok n rs `sublist_of` rs.
Proof.
  revert n. induction rs as [|r rs IH]; intros n; simpl; [done|].
  destruct (ok n); simpl; [by apply sublist_skip | by apply sublist_cons].
Qed.

Lemma persist_players ok gameId ps st :
  foldl (λ s p, db_run_insert ok (ResultRow gameId None (taps p)) s) st ps =
  with_db
    (sprint_results st ++
       written ok (db_calls st) ((λ p, ResultRow gameId None (taps p)) <$> ps))
    (db_calls st + length ps)%nat st.
Proof.
  revert st. induction ps as [|p ps IH]; intros st; simpl.
  - destruct st. unfold with_db. simpl. by rewrite app_nil_r, Nat.add_0_r.
  - rewrite IH. unfold with_db, db_run_insert. simpl.
    rewrite Nat.add_succ_r. f_equal.
    destruct (ok (db_calls st)); simpl; by rewrite <- ?app_assoc.
Qed.

Lemma endSprintGame_at ok gameId st l g :
  get_game st gameId = Some (l, g) →
  endSprintGame ok gameId st =
    schedule 30000 (CleanupTimeout gameId)
      (emit_room gameId
         (GameEnded (js_sort by_taps_desc (map_values (players g)))
            (head (js_sort by_taps_desc (map_values (players g)))))
         (with_db
            (sprint_results st ++
               written ok (db_calls st)
                 ((λ p, ResultRow gameId None (taps p)) <$> map_values (players g)))
            (db_calls st + length (map_values (players g)))%nat
            (update_game l (set_status Finished) st))).
Proof. intros Hget. unfold endSprintGame. rewrite Hget. by rewrite persist_players. Qed.

Lemma endSprintGame_missing ok gameId st :
  get_game st gameId = None → endSprintGame ok gameId st = st.
Proof. intros H. unfold endSprintGame. by rewrite H. Qed.

Lemma startSprintGame_at gameId st l g :
  get_game st gameId = Some (l, g) →
  startSprintGame gameId st =
    schedule (gameDuration g) (EndGameTimeout gameId)
      (emit_room gameId (GameStarted (gameDuration g))
         (update_game l
            (λ g, set_times (now st) (now st + gameDuration g) (set_status Active g))
            st)).
Proof. intros Hget. unfold startSprintGame. by rewrite Hget. Qed.

Lemma startSprintGame_missing gameId st :
  get_game st gameId = None → startSprintGame gameId st = st.
Proof. intros H. unfold startSprintGame. by rewrite H. Qed.

(** C1.  The finish transition ([endSprintGame] on a registered game):
    the status becomes [Finished]; the broadcast ranking is the player set
    in descending order of taps, players with equal taps staying in the
    iteration order of the players map (which is join order, see
    [map_set_new] and [map_set_keys]); the winner is the first entry of the
    ranking and is absent exactly when there are no players; one INSERT is
    issued per player, and each of them leaves its row when the store does
    not fail; the broadcast and the game state do not depend on the outcome
    of the writes. *)
Theorem endSprintGame_finish (ok : nat → bool) (gameId : string) (st : server)
    (l : nat) (g : game) :
  get_game st gameId = Some (l, g) →
  let st' := endSprintGame ok gameId st in
  let roster := map_values (players g) in
  let ranking := js_sort by_taps_desc roster in
  heap st' = <[l := set_status Finished g]> (heap st)
  ∧ emitted st' =
      emitted st ++
        [Emission (ToRoom gameId) (room_members st gameId)
           (GameEnded ranking (ranking !! 0%nat))]
  ∧ ranking ≡ₚ roster
  ∧ StronglySorted (λ a b, taps b ≤ taps a) ranking
  ∧ (∀ t, filter (λ p, taps p = t) ranking = filter (λ p, taps p = t) roster)
  ∧ (ranking !! 0%nat = None ↔ players g = [])
  ∧ db_calls st' = (db_calls st + length (players g))%nat
  ∧ sprint_results st' =
      sprint_results st ++
        written ok (db_calls st) ((λ p, ResultRow gameId None (taps p)) <$> roster)
  ∧ ((∀ n, ok n = true) →
     sprint_results st' =
       sprint_results st ++ ((λ p, ResultRow gameId None (taps p)) <$> roster))
  ∧ (∀ ok', emitted (endSprintGame ok' gameId st) = emitted st'
            ∧ heap (endSprintGame ok' gameId st) = heap st').
Proof.
  intros Hget st' roster ranking.
  pose proof Hget as [Hreg Hheap]%get_game_Some.
  assert (Hst : ∀ o, endSprintGame o gameId st = _)
    by (intros o; by apply endSprintGame_at).
  fold roster in Hst. fold ranking in Hst.
  assert (Hhd : head ranking = ranking !! 0%nat) by by destruct ranking.
  subst st'. rewrite Hst. simpl. split_and!.
  - by apply alter_at.
  - by rewrite Hhd.
  - apply js_sort_perm.
  - apply ranking_descending.
  - intros t. apply ranking_stable.
  - split.
    + intros H. assert (ranking = []) as Hnil by by destruct ranking.
      apply js_sort_nil_inv in Hnil. unfold roster, map_values in Hnil.
      by apply fmap_nil_inv in Hnil.
    + intros Hp. unfold ranking, roster. by rewrite Hp.
  - unfold roster, map_values. by rewrite length_fmap.
  - done.
  - intros Hok. by rewrite written_all.
  - intros ok'. by rewrite Hst.
Qed.

(** ** Joining *)

Lemma get_game_update st gameId l g f :
  get_game st gameId = Some (l, g) →
  get_game (update_game l f st) gameId = Some (l, f g).
Proof.
  intros [Hreg Hheap]%get_game_Some. apply get_game_Some. split; [done|].
  simpl. by rewrite list_lookup_alter_eq, Hheap.
Qed.

Lemma room_members_join socket room st :
  room_members (socket_join socket room st) room = {[socket]} ∪ room_members st room.
Proof. unfold room_members at 1. simpl. by rewrite lookup_insert_eq. Qed.

Lemma startSprintCountdown_at st gameId l g :
  get_game st gameId = Some (l, g) →
  startSprintCountdown gameId st =
    schedule 1000 (CountdownInterval gameId l)
      (update_game l (λ g, set_countdown 5 (set_status Countdown g)) st).
Proof. intros H. unfold startSprintCountdown. by rewrite H. Qed.

Lemma status_joinable (s : game_status) :
  (s ≠ Waiting ∧ s ≠ Countdown) ↔ (s = Active ∨ s = Finished).
Proof. destruct s; split; intros H; try tauto; destruct H; try done; tauto. Qed.


Lemma endSprintGame_finish_witness :
  get_game demo_tapped "g" = Some (0%nat, demo_game 2 1)
  ∧ heap (endSprintGame db_fine "g" demo_tapped) =
      <[0%nat := set_status Finished (demo_game 2 1)]> (heap demo_tapped).
Proof.
  assert (H : get_game demo_tapped "g" = Some (0%nat, demo_game 2 1))
    by (vm_compute; reflexivity).
  split; [exact H|].
  exact (proj1 (endSprintGame_finish db_fine "g" demo_tapped 0 (demo_game 2 1) H)).
Defined.


(** ** The countdown *)

Lemma countdown_tick_continue k gameId l st g :
  heap st !! l = Some g →
  0 ≤ countdown g - 1 →
  countdown_tick k gameId l st =
    with_timers (<[k := (now st + 1000, CountdownInterval gameId l)]> (timers st))
      (update_game l (set_countdown (countdown g - 1))
         (emit_room gameId (CountdownTick (countdown g)) st)).
Proof.
  intros Hg Hc. unfold countdown_tick. rewrite Hg.
  destruct (Z.ltb_spec (countdown g - 1) 0); [lia|done].
Qed.

Lemma countdown_tick_last k gameId l st g :
  heap st !! l = Some g →
  countdown g - 1 < 0 →
  countdown_tick k gameId l st =
    startSprintGame gameId
      (with_timers (delete k (timers st))
         (update_game l (set_countdown (countdown g - 1))
            (emit_room gameId (CountdownTick (countdown g)) st))).
Proof.
  intros Hg Hc. unfold countdown_tick. rewrite Hg.
  destruct (Z.ltb_spec (countdown g - 1) 0); [done|lia].
Qed.

(** C4, as the code has it.  A tick of the countdown interval of a game
    broadcasts the number of seconds the game holds before the tick and
    then lowers it by one.  While the lowered value is not negative the
    interval stays pending, due one second later.  When the lowered value
    is negative the interval is cleared and the game registered under the
    id becomes active with [startTime = now], [endTime = startTime +
    gameDuration]; 'game-started' is broadcast with the duration and the
    end of the window is scheduled [gameDuration] later. *)
Theorem countdown_tick_contract (k : nat) (gameId : string) (l : nat)
    (st : server) (g : game) :
  get_game st gameId = Some (l, g) →
  let st' := countdown_tick k gameId l st in
  let tick := Emission (ToRoom gameId) (room_members st gameId)
                (CountdownTick (countdown g)) in
  (1 ≤ countdown g →
     heap st' = <[l := set_countdown (countdown g - 1) g]> (heap st)
     ∧ emitted st' = emitted st ++ [tick]
     ∧ timers st' = <[k := (now st + 1000, CountdownInterval gameId l)]> (timers st))
  ∧ (countdown g < 1 →
     heap st' =
       <[l := set_times (now st) (now st + gameDuration g)
                (set_status Active (set_countdown (countdown g - 1) g))]> (heap st)
     ∧ emitted st' =
         emitted st ++
           [tick;
            Emission (ToRoom gameId) (room_members st gameId)
              (GameStarted (gameDuration g))]
     ∧ timers st' =
         <[next_timer st := (now st + gameDuration g, EndGameTimeout gameId)]>
           (delete k (timers st))).
Proof.
  intros [Hreg Hheap]%get_game_Some st' tick. subst st'. split.
  - intros Hc. rewrite (countdown_tick_continue k gameId l st g) by (done || lia).
    simpl. split_and!; [by apply alter_at|done|done].
  - intros Hc. rewrite (countdown_tick_last k gameId l st g) by (done || lia).
    rewrite (startSprintGame_at gameId _ l (set_countdown (countdown g - 1) g))
      by (apply get_game_Some; simpl; by rewrite list_lookup_alter_eq, Hheap).
    simpl. split_and!.
    + by apply (alter_alter_at (set_countdown (countdown g - 1))
                  (λ g0, set_times (now st) (now st + gameDuration g0)
                           (set_status Active g0))).
    + by rewrite <- app_assoc.
    + done.
Qed.

Lemma countdown_tick_contract_witness :
  emitted (countdown_tick 0 "g" 0 demo_countdown) =
    emitted demo_countdown ++
      [Emission (ToRoom "g") (room_members demo_countdown "g") (CountdownTick 5)].
Proof.
  assert (H : get_game demo_countdown "g" =
              Some (0%nat,
                    Game "g" Countdown [("alice", demo_alice 0); ("bob", demo_bob 0)]
                      None None 5 15000))
    by (vm_compute; reflexivity).
  pose proof (countdown_tick_contract 0 "g" 0 demo_countdown _ H) as [Hc _].
  simpl in Hc. apply Hc. lia.
Defined.

(** The first tick of the sample game broadcasts 5 while the game is left
    with 4 seconds: the value sent is not the decremented one. *)
Lemma countdown_tick_sends_old_value :
  let st' := run db_fine demo_countdown [Elapse 1000; Fire 0] in
  countdown <$> heap st' !! 0%nat = Some 4
  ∧ em_payload <$> last (emitted st') = Some (CountdownTick 5)
  ∧ em_payload <$> last (emitted st') ≠ CountdownTick <$> (countdown <$> heap st' !! 0%nat).
Proof. vm_compute. split_and!; [done|done|]. intros [=]. Qed.

(** ** Timer callbacks and the registry *)

Lemma get_game_unregistered st gameId :
  sprintGames st !! gameId = None → get_game st gameId = None.
Proof. intros H. unfold get_game. by rewrite H. Qed.

(** C7, as the code has it.  [startSprintGame] and [endSprintGame] look
    the game up in the registry and return at once when it is gone: such a
    callback changes nothing and sends nothing.  The end-of-window timer
    that fires for a missing game only disappears from the timer table, and
    the cleanup of a missing game leaves the registry as it is. *)
Theorem timer_callbacks_check_registry (ok : nat → bool) (gameId : string)
    (st : server) :
  sprintGames st !! gameId = None →
  startSprintGame gameId st = st
  ∧ endSprintGame ok gameId st = st
  ∧ (∀ k, run_timer ok k (EndGameTimeout gameId) st =
          with_timers (delete k (timers st)) st)
  ∧ (∀ k, sprintGames (run_timer ok k (CleanupTimeout gameId) st) = sprintGames st).
Proof.
  intros Hreg. pose proof (get_game_unregistered st gameId Hreg) as Hget.
  split_and!.
  - by apply startSprintGame_missing.
  - by apply endSprintGame_missing.
  - intros k. simpl. by apply endSprintGame_missing.
  - intros k. simpl. by apply delete_id.
Qed.

Lemma timer_callbacks_check_registry_witness :
  sprintGames demo_evicted !! "g" = None
  ∧ endSprintGame db_fine "g" demo_evicted = demo_evicted.
Proof.
  assert (H : sprintGames demo_evicted !! "g" = None) by (vm_compute; reflexivity).
  split; [exact H|].
  exact (proj1 (proj2 (timer_callbacks_check_registry db_fine "g" demo_evicted H))).
Defined.

(** No callback looks at the status.  On the finished sample game a second
    run of [endSprintGame] stores the two rows again and broadcasts again,
    a run of [startSprintGame] makes the game active again, and the
    countdown callback broadcasts for a game that left the registry. *)
Lemma late_callbacks_still_act :
  status <$> heap demo_finished !! 0%nat = Some Finished
  ∧ endSprintGame db_fine "g" demo_finished ≠ demo_finished
  ∧ length (sprint_results demo_finished) = 2%nat
  ∧ length (sprint_results (endSprintGame db_fine "g" demo_finished)) = 4%nat
  ∧ length (emitted (endSprintGame db_fine "g" demo_finished)) =
      S (length (emitted demo_finished))
  ∧ status <$> heap (startSprintGame "g" demo_finished) !! 0%nat = Some Active
  ∧ sprintGames demo_evicted !! "g" = None
  ∧ length (emitted (countdown_tick 0 "g" 0 demo_evicted)) =
      S (length (emitted demo_evicted)).
Proof.
  split_and!; try (vm_compute; reflexivity).
  intros H. apply (f_equal (λ s, length (sprint_results s))) in H.
  vm_compute in H. discriminate.
Qed.

(** ** Every handler follows one of its paths *)

Lemma set_players_same g : set_players (players g) g = g.
Proof. by destruct g. Qed.

Lemma disconnect_cases socket st : disconnect_spec socket st (disconnect socket st).
Proof.
  unfold disconnect.
  change (activePlayers (leave_all socket st)) with (activePlayers st).
  destruct (activePlayers st !! socket) as [info|] eqn:Hinfo.
  - change (get_game (leave_all socket st) (pi_gameId info))
      with (get_game st (pi_gameId info)).
    destruct (get_game st (pi_gameId info)) as [[l g]|] eqn:Hget.
    + exact (disconnect_member socket st info l g Hinfo Hget).
    + exact (disconnect_stale socket st info Hinfo Hget).
  - exact (disconnect_untracked socket st Hinfo).
Qed.

Lemma tap_cases socket gameId st : tap_spec socket gameId st (tap socket gameId st).
Proof.
  unfold tap. destruct (get_game st gameId) as [[l g]|] eqn:Hget.
  - case_bool_decide as Hst.
    + apply tap_ignored. intros l' g' H. rewrite Hget in H.
      injection H as <- <-. by left.
    + destruct (map_get socket (players g)) as [p|] eqn:Hp.
      * assert (status g = Active) as Ha
          by (destruct (decide (status g = Active)); [done|by destruct Hst]).
        exact (tap_counted socket gameId st l g p Hget Ha Hp).
      * apply tap_ignored. intros l' g' H. rewrite Hget in H.
        injection H as <- <-. by right.
  - apply tap_ignored. intros l' g' H. by rewrite Hget in H.
Qed.

Lemma join_cases socket data st : join_spec socket data st (join_sprint socket data st).
Proof.
  unfold join_sprint. destruct (get_game st (jd_gameId data)) as [[l g]|] eqn:Hget.
  - case_bool_decide as Hst.
    + eapply join_late; [done|]. by apply status_joinable.
    + assert (status g = Waiting ∨ status g = Countdown) as Hj
        by (rewrite status_joinable in Hst; destruct (status g); tauto).
      pose proof Hget as [Hreg Hheap]%get_game_Some.
      pose proof (join_admitted socket data st l g Hget Hj) as Hspec.
      simpl in Hspec.
      destruct (decide (status g = Waiting)) as [Hw|Hw].
      * rewrite bool_decide_eq_true_2.
        -- erewrite startSprintCountdown_at; [exact Hspec|].
           apply get_game_Some. simpl. by rewrite list_lookup_alter_eq, Hheap.
        -- split; [|done]. unfold map_size.
           destruct (players g) as [|[k v] m]; simpl; [lia|].
           destruct (decide (socket = k)); simpl; lia.
      * rewrite bool_decide_eq_false_2; [exact Hspec|]. by intros [_ ?].
  - by apply join_unknown.
Qed.

Lemma tick_cases k gameId l st : tick_spec k gameId l st (countdown_tick k gameId l st).
Proof.
  destruct (heap st !! l) as [g|] eqn:Hg.
  - destruct (decide (1 ≤ countdown g)).
    + rewrite (countdown_tick_continue k gameId l st g) by (done || lia).
      by apply tick_continue.
    + rewrite (countdown_tick_last k gameId l st g) by (done || lia).
      apply tick_last; [done|lia].
  - unfold countdown_tick. rewrite Hg. by apply tick_dangling.
Qed.

Lemma fire_cases ok k st : fire_spec ok k st (fire ok k st).
Proof.
  unfold fire. destruct (timers st !! k) as [[due t]|] eqn:Hk.
  - destruct (Z.leb_spec due (now st)).
    + by eapply fire_due.
    + apply fire_idle. intros due' t' H'. rewrite Hk in H'. by injection H' as <- <-.
  - apply fire_idle. intros due t H'. by rewrite Hk in H'.
Qed.

(** ** Timers drive the phases *)

Lemma run_app ok st evs1 evs2 :
  run ok st (evs1 ++ evs2) = run ok (run ok st evs1) evs2.
Proof. apply foldl_app. Qed.

Lemma run_cons ok st e evs : run ok st (e :: evs) = run ok (step ok st e) evs.
Proof. done. Qed.

Lemma disconnect_phase socket st :
  sprintGames (disconnect socket st) = sprintGames st
  ∧ timers (disconnect socket st) = timers st
  ∧ next_timer (disconnect socket st) = next_timer st
  ∧ now (disconnect socket st) = now st
  ∧ ∀ l, phase <$> heap (disconnect socket st) !! l = phase <$> heap st !! l.
Proof.
  destruct (disconnect_cases socket st) as [Hinfo|info Hinfo Hget|info l g Hinfo Hget];
    simpl; split_and!; try done.
  intros l'. rewrite list_lookup_alter. case_decide; [subst l'|done].
  by destruct (heap st !! l).
Qed.

Lemma disconnects_phase ok sockets st :
  sprintGames (run ok st (Disconnect <$> sockets)) = sprintGames st
  ∧ timers (run ok st (Disconnect <$> sockets)) = timers st
  ∧ next_timer (run ok st (Disconnect <$> sockets)) = next_timer st
  ∧ now (run ok st (Disconnect <$> sockets)) = now st
  ∧ ∀ l, phase <$> heap (run ok st (Disconnect <$> sockets)) !! l
         = phase <$> heap st !! l.
Proof.
  revert st. induction sockets as [|s sockets IH]; intros st; [done|].
  rewrite fmap_cons, run_cons. change (step ok st (Disconnect s)) with (disconnect s st).
  destruct (IH (disconnect s st)) as (-> & -> & -> & -> & Hph).
  destruct (disconnect_phase s st) as (-> & -> & -> & -> & Hph').
  split_and!; try done. intros l. by rewrite Hph, Hph'.
Qed.

Lemma disconnects_game ok sockets st gameId l g :
  get_game st gameId = Some (l, g) →
  ∃ g', get_game (run ok st (Disconnect <$> sockets)) gameId = Some (l, g')
        ∧ phase g' = phase g.
Proof.
  intros [Hreg Hheap]%get_game_Some.
  destruct (disconnects_phase ok sockets st) as (Hr & _ & _ & _ & Hph).
  specialize (Hph l). rewrite Hheap in Hph.
  destruct (heap (run ok st (Disconnect <$> sockets)) !! l) as [g'|] eqn:Hg';
    [|done].
  exists g'. split; [|simpl in Hph; congruence].
  apply get_game_Some. by rewrite Hr.
Qed.

Lemma countdown_round ok gameId l k q st g due :
  get_game st gameId = Some (l, g) →
  timers st !! k = Some (due, CountdownInterval gameId l) →
  due ≤ now st + 1000 →
  let st' := run ok st ((Disconnect <$> q) ++ [Elapse 1000; Fire k]) in
  (1 ≤ countdown g →
     ∃ g', get_game st' gameId = Some (l, g')
           ∧ phase g' = (status g, countdown g - 1, gameDuration g)
           ∧ timers st' !! k = Some (now st' + 1000, CountdownInterval gameId l)
           ∧ next_timer st' = next_timer st)
  ∧ (countdown g < 1 →
     ∃ g', get_game st' gameId = Some (l, g')
           ∧ status g' = Active
           ∧ gameDuration g' = gameDuration g
           ∧ startTime g' = Some (now st')
           ∧ endTime g' = Some (now st' + gameDuration g)
           ∧ timers st' !! next_timer st =
               Some (now st' + gameDuration g, EndGameTimeout gameId)).
Proof.
  intros Hget Hk Hdue st'. subst st'. rewrite run_app.
  destruct (disconnects_game ok q st gameId l g Hget) as (g1 & Hget1 & Hph1).
  destruct (disconnects_phase ok q st) as (_ & Ht & Hn & Hnow & _).
  set (st1 := run ok st (Disconnect <$> q)) in *.
  injection Hph1 as Hs1 Hc1 Hd1.
  pose proof Hget1 as [Hreg1 Hheap1]%get_game_Some.
  change (run ok st1 [Elapse 1000; Fire k])
    with (fire ok k (with_now (now st1 + Z.max 0 1000) st1)).
  set (st2 := with_now (now st1 + Z.max 0 1000) st1).
  assert (Hfire : fire ok k st2 = countdown_tick k gameId l st2).
  { unfold fire. change (timers st2) with (timers st1). rewrite Ht, Hk.
    destruct (Z.leb_spec due (now st2)) as [|Hlt]; [done|]. simpl in Hlt. lia. }
  rewrite Hfire. split; intros Hc.
  - rewrite (countdown_tick_continue k gameId l st2 g1) by (done || lia).
    exists (set_countdown (countdown g1 - 1) g1). simpl. split_and!.
    + apply get_game_Some. simpl. split; [done|].
      by rewrite list_lookup_alter_eq, Hheap1.
    + unfold phase. simpl. by rewrite Hs1, Hc1, Hd1.
    + by rewrite lookup_insert_eq.
    + done.
  - rewrite (countdown_tick_last k gameId l st2 g1) by (done || lia).
    rewrite (startSprintGame_at gameId _ l (set_countdown (countdown g1 - 1) g1))
      by (apply get_game_Some; simpl; by rewrite list_lookup_alter_eq, Hheap1).
    eexists. simpl. split_and!.
    + apply get_game_Some. simpl. split; [done|].
      by rewrite !list_lookup_alter_eq, Hheap1.
    + done.
    + simpl. exact Hd1.
    + done.
    + simpl. by rewrite Hd1.
    + by rewrite Hn, Hd1, lookup_insert_eq.
Qed.

Lemma countdown_run_cons k q qs :
  countdown_run k (q :: qs) =
    ((Disconnect <$> q) ++ [Elapse 1000; Fire k]) ++ countdown_run k qs.
Proof. simpl. by rewrite <- app_assoc. Qed.

Lemma countdown_runs_out ok gameId l k quits :
  ∀ st g due,
  get_game st gameId = Some (l, g) →
  timers st !! k = Some (due, CountdownInterval gameId l) →
  due ≤ now st + 1000 →
  countdown g + 1 = Z.of_nat (length quits) →
  quits ≠ [] →
  let st' := run ok st (countdown_run k quits) in
  ∃ g', get_game st' gameId = Some (l, g')
        ∧ status g' = Active
        ∧ gameDuration g' = gameDuration g
        ∧ startTime g' = Some (now st')
        ∧ endTime g' = Some (now st' + gameDuration g)
        ∧ timers st' !! next_timer st =
            Some (now st' + gameDuration g, EndGameTimeout gameId).
Proof.
  induction quits as [|q qs IH]; intros st g due Hget Hk Hdue Hlen Hne; [done|].
  rewrite countdown_run_cons, run_app.
  destruct (countdown_round ok gameId l k q st g due Hget Hk Hdue) as [Hgo Hend].
  destruct qs as [|q' qs'].
  - simpl in *. apply Hend. lia.
  - destruct Hgo as (g1 & Hget1 & Hph1 & Hk1 & Hn1); [simpl in Hlen; lia|].
    injection Hph1 as Hs1 Hc1 Hd1.
    rewrite <- Hn1, <- Hd1. eapply IH; [done|done|lia| |done].
    rewrite Hc1. simpl length in *. lia.
Qed.

Lemma finish_round ok gameId l k q st g due d :
  get_game st gameId = Some (l, g) →
  timers st !! k = Some (due, EndGameTimeout gameId) →
  due ≤ now st + d →
  ∃ g', get_game (run ok st ((Disconnect <$> q) ++ [Elapse d; Fire k])) gameId
          = Some (l, g')
        ∧ status g' = Finished.
Proof.
  intros Hget Hk Hdue. rewrite run_app.
  destruct (disconnects_game ok q st gameId l g Hget) as (g1 & Hget1 & Hph1).
  destruct (disconnects_phase ok q st) as (_ & Ht & Hn & Hnow & _).
  set (st1 := run ok st (Disconnect <$> q)) in *.
  pose proof Hget1 as [Hreg1 Hheap1]%get_game_Some.
  change (run ok st1 [Elapse d; Fire k])
    with (fire ok k (with_now (now st1 + Z.max 0 d) st1)).
  set (st2 := with_now (now st1 + Z.max 0 d) st1).
  assert (Hk1 : timers st1 !! k = Some (due, EndGameTimeout gameId))
    by (by rewrite Ht).
  assert (Hfire : fire ok k st2 =
                  endSprintGame ok gameId (with_timers (delete k (timers st1)) st2)).
  { unfold fire. change (timers st2) with (timers st1). rewrite Hk1.
    destruct (Z.leb_spec due (now st2)) as [|Hlt]; [reflexivity|].
    simpl in Hlt. lia. }
  rewrite Hfire.
  rewrite (endSprintGame_at ok gameId _ l g1) by (by apply get_game_Some).
  exists (set_status Finished g1). split; [|done].
  apply get_game_Some. simpl. split; [done|].
  by rewrite list_lookup_alter_eq, Hheap1.
Qed.

(** C10.  Once the countdown interval of a registered game is pending, the
    timers alone carry the game on: whatever sockets disconnect before each
    tick and before the end of the window, the game is active after
    [countdown + 1] ticks and finished after the end-of-window timer that
    the last tick scheduled.  A finish that finds no players issues no
    INSERT and broadcasts 'game-ended' with an empty result list and no
    winner. *)
Theorem timers_drive_phases (ok : nat → bool) (gameId : string) (l k : nat)
    (quits : list (list string)) (last_quit : list string)
    (st : server) (g : game) (due : Z) :
  get_game st gameId = Some (l, g) →
  status g = Countdown →
  timers st !! k = Some (due, CountdownInterval gameId l) →
  due ≤ now st + 1000 →
  0 ≤ countdown g →
  Z.of_nat (length quits) = countdown g + 1 →
  let st1 := run ok st (countdown_run k quits) in
  let st2 :=
    run ok st1
      ((Disconnect <$> last_quit) ++ [Elapse (gameDuration g); Fire (next_timer st)]) in
  (∃ g1, get_game st1 gameId = Some (l, g1) ∧ status g1 = Active)
  ∧ (∃ g2, get_game st2 gameId = Some (l, g2) ∧ status g2 = Finished)
  ∧ (∀ s l0 g0,
       get_game s gameId = Some (l0, g0) →
       players g0 = [] →
       sprint_results (endSprintGame ok gameId s) = sprint_results s
       ∧ db_calls (endSprintGame ok gameId s) = db_calls s
       ∧ emitted (endSprintGame ok gameId s) =
           emitted s ++
             [Emission (ToRoom gameId) (room_members s gameId) (GameEnded [] None)]).
Proof.
  intros Hget Hst Hk Hdue Hc Hlen st1 st2.
  destruct (countdown_runs_out ok gameId l k quits st g due Hget Hk Hdue)
    as (g1 & Hget1 & Hs1 & Hd1 & _ & _ & Hk1);
    [lia|intros ->; simpl in Hlen; lia|].
  fold st1 in Hget1, Hk1. split_and!.
  - by exists g1.
  - subst st2. eapply finish_round; [done|done|lia].
  - intros s l0 g0 Hg0 Hp0. rewrite (endSprintGame_at ok gameId s l0 g0 Hg0).
    rewrite Hp0. simpl. by rewrite app_nil_r, Nat.add_0_r.
Qed.

Lemma timers_drive_phases_witness :
  ∃ g2,
    get_game
      (run db_fine
         (run db_fine demo_countdown
            (countdown_run 0 [["alice"]; []; ["bob"]; []; []; []]))
         ((Disconnect <$> []) ++ [Elapse 15000; Fire (next_timer demo_countdown)]))
      "g" = Some (0%nat, g2)
    ∧ status g2 = Finished.
Proof.
  assert (Hget : get_game demo_countdown "g" =
                 Some (0%nat,
                       Game "g" Countdown [("alice", demo_alice 0); ("bob", demo_bob 0)]
                         None None 5 15000))
    by (vm_compute; reflexivity).
  assert (Hk : timers demo_countdown !! 0%nat = Some (1000, CountdownInterval "g" 0))
    by (vm_compute; reflexivity).
  assert (Hdue : 1000 ≤ now demo_countdown + 1000) by (vm_compute; discriminate).
  exact (proj1 (proj2
    (timers_drive_phases db_fine "g" 0 0 [["alice"]; []; ["bob"]; []; []; []] []
       demo_countdown _ 1000 Hget eq_refl Hk Hdue
       ltac:(simpl; lia) ltac:(simpl; lia)))).
Defined.

(** ** The results table *)

Lemma startSprintGame_db gameId st :
  sprint_results (startSprintGame gameId st) = sprint_results st
  ∧ db_calls (startSprintGame gameId st) = db_calls st.
Proof. unfold startSprintGame. by destruct (get_game st gameId) as [[l g]|]. Qed.

Lemma countdown_tick_db k gameId l st :
  sprint_results (countdown_tick k gameId l st) = sprint_results st
  ∧ db_calls (countdown_tick k gameId l st) = db_calls st.
Proof.
  destruct (tick_cases k gameId l st) as [Hg|g Hg Hc|g Hg Hc]; [done|done|].
  match goal with
  | |- context [startSprintGame ?i ?s] => destruct (startSprintGame_db i s) as [-> ->]
  end.
  done.
Qed.

(** Only the end-of-window timer of a registered game writes rows: one
    INSERT per player in the map at that moment, each with a null user. *)
Lemma step_db ok st e :
  (sprint_results (step ok st e) = sprint_results st
   ∧ db_calls (step ok st e) = db_calls st)
  ∨ ∃ k due gameId l g,
      e = Fire k
      ∧ timers st !! k = Some (due, EndGameTimeout gameId)
      ∧ due ≤ now st
      ∧ get_game st gameId = Some (l, g)
      ∧ sprint_results (step ok st e) =
          sprint_results st ++
            written ok (db_calls st)
              ((λ p, ResultRow gameId None (taps p)) <$> map_values (players g))
      ∧ db_calls (step ok st e) = (db_calls st + length (players g))%nat.
Proof.
  destruct e as [gameId|socket data|socket gameId|socket|ms|k]; simpl.
  - by left.
  - left. destruct (join_cases socket data st); simpl; try done.
    by case_decide.
  - left. by destruct (tap_cases socket gameId st).
  - left. by destruct (disconnect_cases socket st).
  - by left.
  - destruct (fire_cases ok k st) as [Hidle|due t Hk Hdue]; [by left|].
    destruct t as [gameId l|gameId|gameId]; simpl.
    + left. apply countdown_tick_db.
    + destruct (get_game st gameId) as [[l g]|] eqn:Hget.
      * right. exists k, due, gameId, l, g.
        rewrite (endSprintGame_at ok gameId
                   (with_timers (delete k (timers st)) st) l g Hget).
        simpl. unfold map_values. by rewrite length_fmap.
      * left.
        by rewrite (endSprintGame_missing ok gameId
                      (with_timers (delete k (timers st)) st) Hget).
    + by left.
Qed.

Lemma written_user_null ok n gameId (ps : list player) r :
  r ∈ written ok n ((λ p, ResultRow gameId None (taps p)) <$> ps) → user_id r = None.
Proof.
  intros Hr. eapply elem_of_sublist in Hr; [|apply written_sublist].
  apply list_elem_of_fmap in Hr as (p & -> & _). done.
Qed.

Lemma run_db_grows ok evs st :
  ∃ more,
    sprint_results (run ok st evs) = sprint_results st ++ more
    ∧ ∀ r, r ∈ more → user_id r = None.
Proof.
  revert st. induction evs as [|e evs IH]; intros st.
  - exists []. split; [by rewrite app_nil_r|]. by intros r ?%elem_of_nil.
  - rewrite run_cons. destruct (IH (step ok st e)) as (more & -> & Hnull).
    destruct (step_db ok st e)
      as [[-> _]|(k & due & gameId & l & g & _ & _ & _ & _ & -> & _)].
    + by exists more.
    + eexists. rewrite <- app_assoc. split; [done|].
      intros r [Hr|Hr]%elem_of_app; [|by apply Hnull].
      by eapply written_user_null.
Qed.

(** ** Reading the results *)

Lemma by_row_taps_desc_total a b : ¬ by_row_taps_desc a b ≤ 0 → by_row_taps_desc b a ≤ 0.
Proof. unfold by_row_taps_desc. lia. Qed.

Lemma by_row_taps_desc_trans a b c :
  by_row_taps_desc a b ≤ 0 → by_row_taps_desc b c ≤ 0 → by_row_taps_desc a c ≤ 0.
Proof. unfold by_row_taps_desc. lia. Qed.

Lemma select_results_sorted users gameId rows :
  StronglySorted (λ a b, row_taps b.1 ≤ row_taps a.1)
    (select_results users gameId rows).
Proof.
  eapply StronglySorted_weaken;
    [|apply (js_sort_sorted by_row_taps_desc
               by_row_taps_desc_total by_row_taps_desc_trans)].
  unfold by_row_taps_desc. intros a b. simpl. lia.
Qed.

Lemma select_results_rows users gameId rows :
  (select_results users gameId rows).*1 ≡ₚ filter (λ r, row_game_id r = gameId) rows.
Proof.
  unfold select_results. rewrite js_sort_perm.
  rewrite <- list_fmap_compose. by rewrite list_fmap_id.
Qed.

(** C6, as the code has it.  The results route reads the table only.
    Whatever happens after a state (any events: the end of the game, its
    removal from the registry, any amount of time), a successful read
    answers 200 with the rows of the session in descending order of taps,
    and every row the session had in that state is still among them.  The
    route has no 'not found' answer: a failing read gives 500, every other
    request 200. *)
Theorem get_results_durable (ok : nat → bool) (users : gmap Z string)
    (gameId : string) (st : server) (evs : list event) :
  let st' := run ok st evs in
  let rs := select_results users gameId (sprint_results st') in
  get_results true users gameId st' = Results200 rs
  ∧ StronglySorted (λ a b, row_taps b.1 ≤ row_taps a.1) rs
  ∧ rs.*1 ≡ₚ filter (λ r, row_game_id r = gameId) (sprint_results st')
  ∧ (∀ r, r ∈ sprint_results st → row_game_id r = gameId → r ∈ rs.*1)
  ∧ get_results false users gameId st' = Results500 "Failed to fetch results".
Proof.
  intros st' rs. split_and!.
  - done.
  - apply select_results_sorted.
  - apply select_results_rows.
  - intros r Hr Hid. unfold rs. rewrite select_results_rows.
    apply list_elem_of_filter. split; [done|].
    destruct (run_db_grows ok evs st) as (more & Hmore & _).
    unfold st'. rewrite Hmore. apply elem_of_app. by left.
  - done.
Qed.

(** An hour after the sample game left the registry its rows are still
    served with status 200, and an id that never existed gets 200 with an
    empty list. *)
Lemma get_results_after_eviction :
  let st := run db_fine demo_evicted [Elapse 3600000] in
  sprintGames st !! "g" = None
  ∧ get_results true ∅ "g" st =
      Results200 [(ResultRow "g" None 2, None); (ResultRow "g" None 1, None)]
  ∧ get_results true ∅ "nobody" st = Results200 []
  ∧ ∀ error, get_results true ∅ "g" st ≠ Results500 error.
Proof. vm_compute. by split_and!. Qed.

(** C9, as the code has it.  Every row of [sprint_results] has a null
    user id, whoever joined.  Rows are written by the end-of-window timer of
    a registered game and by nothing else: one INSERT per player in the
    players map at that moment, carrying the game id and the player's
    taps. *)
Theorem sprint_results_anonymous (ok : nat → bool) (t0 : Z) (evs : list event) :
  (∀ r, r ∈ sprint_results (run ok (init t0) evs) → user_id r = None)
  ∧ (∀ st e,
       (sprint_results (step ok st e) = sprint_results st
        ∧ db_calls (step ok st e) = db_calls st)
       ∨ ∃ k due gameId l g,
           e = Fire k
           ∧ timers st !! k = Some (due, EndGameTimeout gameId)
           ∧ due ≤ now st
           ∧ get_game st gameId = Some (l, g)
           ∧ sprint_results (step ok st e) =
               sprint_results st ++
                 written ok (db_calls st)
                   ((λ p, ResultRow gameId None (taps p)) <$> map_values (players g))
           ∧ db_calls (step ok st e) = (db_calls st + length (players g))%nat).
Proof.
  split.
  - intros r Hr. destruct (run_db_grows ok evs (init t0)) as (more & Hmore & Hnull).
    rewrite Hmore in Hr. by apply Hnull.
  - intros st e. apply step_db.
Qed.

(** In the sample session bob joins holding the identity of user 7; the
    row written for him has no user id. *)
Lemma known_caller_stored_without_id :
  demo_joins !! 2%nat = Some (JoinSprint "bob" (JoinData "g" (Some "bob") (Some 7)))
  ∧ sprint_results demo_finished = [ResultRow "g" None 2; ResultRow "g" None 1]
  ∧ ¬ ∃ r, r ∈ sprint_results demo_finished ∧ user_id r = Some 7.
Proof.
  assert (H : sprint_results demo_finished =
              [ResultRow "g" None 2; ResultRow "g" None 1]) by (vm_compute; reflexivity).
  split_and!; [done|done|].
  intros (r & Hr & Hu). rewrite H in Hr.
  apply elem_of_cons in Hr as [->|Hr]; [done|].
  apply elem_of_cons in Hr as [->|Hr]; [done|].
  by apply elem_of_nil in Hr.
Qed.




(** ** After the finish *)

Lemma client_step_finished ok st e l g :
  heap st !! l = Some g →
  status g = Finished →
  client_event e = true →
  ∃ ps,
    heap (step ok st e) !! l = Some (set_players ps g)
    ∧ ps `sublist_of` players g
    ∧ (is_disconnect e = false → ps = players g).
Proof.
  intros Hg Hfin He.
  assert (Hsame : ∀ h : list game, h !! l = Some g →
            ∃ ps, h !! l = Some (set_players ps g)
                  ∧ ps `sublist_of` players g
                  ∧ (is_disconnect e = false → ps = players g)).
  { intros h Hh. exists (players g). by rewrite set_players_same. }
  destruct e as [gameId|socket data|socket gameId|socket|ms|k]; try done; simpl.
  - destruct (join_cases socket data st) as [Hget|l0 g0 Hget Hst|l0 g0 Hget Hst ps st4];
      [by apply Hsame|by apply Hsame|].
    apply get_game_Some in Hget as [_ Hg0].
    assert (l0 ≠ l) as Hne.
    { intros ->. rewrite Hg in Hg0. injection Hg0 as <-.
      rewrite Hfin in Hst. by destruct Hst. }
    apply Hsame. case_decide; simpl; by rewrite ?list_lookup_alter_ne.
  - destruct (tap_cases socket gameId st) as [Hign|l0 g0 p Hget Hst Hp];
      [by apply Hsame|].
    apply get_game_Some in Hget as [_ Hg0].
    assert (l0 ≠ l) as Hne.
    { intros ->. rewrite Hg in Hg0. injection Hg0 as <-. congruence. }
    apply Hsame. simpl. by rewrite list_lookup_alter_ne.
  - destruct (disconnect_cases socket st) as [Hinfo|info Hinfo Hget|info l0 g0 Hinfo Hget];
      [by apply Hsame|by apply Hsame|].
    apply get_game_Some in Hget as [_ Hg0]. simpl.
    destruct (decide (l0 = l)) as [->|Hne].
    + rewrite Hg in Hg0. injection Hg0 as <-.
      exists (map_delete socket (players g)).
      rewrite list_lookup_alter_eq, Hg. split_and!; [done| |done].
      apply map_delete_sublist.
    + apply Hsame. by rewrite list_lookup_alter_ne.
Qed.

(** C5, as the code has it.  Once a game object is finished, socket events
    (joins, taps, disconnects) never change its status, its times or any
    player record that stays in it, and they add no player: what remains in
    the players map is a sub-sequence of the map at the finish, records and
    tap counts included.  Joins and taps leave the object exactly as it
    was; the only change is the removal of a player by its disconnect. *)
Theorem finished_game_frozen (ok : nat → bool) (evs : list event) (st : server)
    (l : nat) (g : game) :
  heap st !! l = Some g →
  status g = Finished →
  Forall (λ e, client_event e = true) evs →
  ∃ ps,
    heap (run ok st evs) !! l = Some (set_players ps g)
    ∧ status (set_players ps g) = Finished
    ∧ ps `sublist_of` players g
    ∧ (Forall (λ e, is_disconnect e = false) evs → set_players ps g = g).
Proof.
  intros Hg Hfin Hevs. revert st g Hg Hfin.
  induction Hevs as [|e evs He Hevs IH]; intros st g Hg Hfin.
  - exists (players g). rewrite set_players_same. by split_and!.
  - rewrite run_cons.
    destruct (client_step_finished ok st e l g Hg Hfin He) as (ps1 & Hg1 & Hsub1 & Hkeep1).
    destruct (IH (step ok st e) (set_players ps1 g) Hg1 Hfin) as (ps & Hg' & _ & Hsub & Hkeep).
    exists ps. simpl in *. split_and!; [done|done|by etrans|].
    intros [Hd Hds]%Forall_cons. specialize (Hkeep Hds). specialize (Hkeep1 Hd).
    subst ps1. by rewrite set_players_same in Hkeep.
Qed.

Lemma finished_game_frozen_witness :
  ∃ ps,
    heap (run db_fine demo_finished
            [Tap "alice" "g"; JoinSprint "carol" (JoinData "g" None None);
             Disconnect "bob"; Tap "bob" "g"]) !! 0%nat
      = Some (set_players ps (set_status Finished (demo_game 2 1)))
    ∧ ps `sublist_of` players (set_status Finished (demo_game 2 1)).
Proof.
  assert (H : heap demo_finished !! 0%nat = Some (set_status Finished (demo_game 2 1)))
    by (vm_compute; reflexivity).
  destruct (finished_game_frozen db_fine
              [Tap "alice" "g"; JoinSprint "carol" (JoinData "g" None None);
               Disconnect "bob"; Tap "bob" "g"]
              demo_finished 0 _ H eq_refl)
    as (ps & Hps & _ & Hsub & _).
  - by repeat constructor.
  - exists ps. split; [exact Hps|exact Hsub].
Defined.

(** In the finished sample game the disconnect of bob removes his record:
    the players map no longer equals the one at the finish. *)
Lemma disconnect_after_finish_drops_player :
  status <$> heap demo_finished !! 0%nat = Some Finished
  ∧ players <$> heap demo_finished !! 0%nat =
      Some [("alice", demo_alice 2); ("bob", demo_bob 1)]
  ∧ players <$> heap (step db_fine demo_finished (Disconnect "bob")) !! 0%nat =
      Some [("alice", demo_alice 2)]
  ∧ players <$> heap (step db_fine demo_finished (Disconnect "bob")) !! 0%nat ≠
      players <$> heap demo_finished !! 0%nat.
Proof. vm_compute. split_and!; [done|done|done|]. intros [=]. Qed.

(** ** What one event does to a game object *)

Lemma alter_lookup_inv {A} (f : A → A) (l0 : nat) (h : list A) (l : nat) (x' : A) :
  alter f l0 h !! l = Some x' →
  ∃ x, h !! l = Some x ∧ ((l ≠ l0 ∧ x' = x) ∨ (l = l0 ∧ x' = f x)).
Proof.
  rewrite list_lookup_alter. case_decide as Hl.
  - subst l0. destruct (h !! l) as [x|]; [|done]. intros [= <-]. exists x. by auto.
  - intros H. exists x'. split; [done|]. left. by split.
Qed.

Lemma status_moves_refl g : status_moves g g.
Proof. by left. Qed.

Lemma tap_target_Some st socket gameId l :
  tap_target st socket gameId = Some l ↔
  ∃ g p, get_game st gameId = Some (l, g) ∧ status g = Active
         ∧ map_get socket (players g) = Some p.
Proof.
  unfold tap_target. destruct (get_game st gameId) as [[l0 g0]|].
  - case_decide as Hst.
    + destruct (map_get socket (players g0)) as [p|] eqn:Hp.
      * split; [intros [= <-]; by exists g0, p|].
        intros (g & p' & Heq & _ & _). congruence.
      * split; [done|]. intros (g & p' & Heq & _ & Hp'). congruence.
    + split; [done|]. intros (g & p' & Heq & Hst' & _). congruence.
  - split; [done|]. by intros (g & p' & ? & _).
Qed.

Lemma not_tap_same st e l g g' :
  players g' = players g →
  (∀ socket gameId, e ≠ Tap socket gameId) →
  players_move st e l g g'.
Proof. intros Hp He. apply pm_same; [done|]. intros s i ->. by destruct (He s i). Qed.

Lemma startSprintGame_heap gameId st l g' :
  heap (startSprintGame gameId st) !! l = Some g' →
  ∃ g, heap st !! l = Some g
       ∧ players g' = players g
       ∧ (status g' = status g ∨ status g' = Active).
Proof.
  unfold startSprintGame. destruct (get_game st gameId) as [[l0 g0]|]; simpl.
  - intros (g & Hg & [[_ ->]|[_ ->]])%alter_lookup_inv; exists g; by auto.
  - intros Hg. exists g'. by auto.
Qed.

Lemma step_heap ok st e l g' :
  heap (step ok st e) !! l = Some g' →
  (heap st !! l = None
   ∧ ∃ gameId, e = PostSprintStart gameId ∧ l = length (heap st)
               ∧ g' = new_game gameId)
  ∨ ∃ g, heap st !! l = Some g ∧ status_moves g g' ∧ players_move st e l g g'.
Proof.
  assert (Hsame : ∀ g, (∀ socket gameId, e ≠ Tap socket gameId) →
            status_moves g g ∧ players_move st e l g g).
  { intros g He. split; [apply status_moves_refl|by apply not_tap_same]. }
  destruct e as [gameId|socket data|socket gameId|socket|ms|k]; simpl.
  - intros Hl. destruct (decide (l < length (heap st))%nat) as [Hlt|Hge].
    + rewrite lookup_app_l in Hl by done. right. exists g'. split; [done|].
      by apply Hsame.
    + rewrite lookup_app_r in Hl by lia.
      destruct (l - length (heap st))%nat as [|n] eqn:Hn; [|done].
      injection Hl as <-. left. split; [apply lookup_ge_None; lia|].
      exists gameId. split_and!; [done|lia|done].
  - destruct (join_cases socket data st) as [Hget|l0 g0 Hget Hst|l0 g0 Hget Hst ps st4].
    + intros Hl. right. exists g'. split; [done|]. by apply Hsame.
    + intros Hl. right. exists g'. split; [done|]. by apply Hsame.
    + pose proof Hget as [_ Hg0]%get_game_Some. intros Hl. right.
      assert (∃ g, heap st !! l = Some g
                   ∧ ((l ≠ l0 ∧ g' = g)
                      ∨ (l = l0 ∧ players g' = ps
                         ∧ (status g' = status g
                            ∨ (status g = Waiting ∧ status g' = Countdown)))))
        as (g & Hg & Hcase).
      { case_decide as Hw; simpl in Hl.
        - apply alter_lookup_inv in Hl as (g1 & Hl & [[Hne ->]|[-> ->]]).
          + apply alter_lookup_inv in Hl as (g & Hl & [[_ ->]|[? _]]); [|done].
            exists g. by auto.
          + apply alter_lookup_inv in Hl as (g & Hl & [[? _]|[_ ->]]); [done|].
            exists g. split; [done|]. right. split_and!; [done|done|].
            right. rewrite Hl in Hg0. by injection Hg0 as ->.
        - apply alter_lookup_inv in Hl as (g & Hl & [[Hne ->]|[-> ->]]).
          + exists g. by auto.
          + exists g. split; [done|]. right. split_and!; [done|done|by left]. }
      exists g. split; [done|].
      destruct Hcase as [[Hne ->]|(-> & Hps & Hmv)].
      * by apply Hsame.
      * rewrite Hg in Hg0. injection Hg0 as ->. split.
        -- destruct Hmv as [?|?]; [by left|by right; left].
        -- by apply pm_join.
  - destruct (tap_cases socket gameId st) as [Hign|l0 g0 p Hget Hst Hp].
    + intros Hl. right. exists g'. split; [done|]. split; [apply status_moves_refl|].
      apply pm_same; [done|]. intros s i [= <- <-].
      intros (g & p & Hget & Hst & Hp)%tap_target_Some.
      destruct (Hign l g Hget) as [?|?]; congruence.
    + pose proof Hget as [_ Hg0]%get_game_Some. simpl.
      intros (g & Hg & [[Hne ->]|[-> ->]])%alter_lookup_inv; right; exists g.
      * split; [done|]. split; [apply status_moves_refl|].
        apply pm_same; [done|]. intros s i [= <- <-].
        intros (g1 & p1 & Hget1 & _)%tap_target_Some. congruence.
      * rewrite Hg in Hg0. injection Hg0 as ->. split; [done|].
        split; [by left|]. by eapply pm_tap.
  - destruct (disconnect_cases socket st) as [Hinfo|info Hinfo Hget|info l0 g0 Hinfo Hget].
    + intros Hl. right. exists g'. split; [done|]. by apply Hsame.
    + intros Hl. right. exists g'. split; [done|]. by apply Hsame.
    + pose proof Hget as [_ Hg0]%get_game_Some. simpl.
      intros (g & Hg & [[Hne ->]|[-> ->]])%alter_lookup_inv; right; exists g.
      * split; [done|]. by apply Hsame.
      * rewrite Hg in Hg0. injection Hg0 as ->. split; [done|].
        split; [by left|]. by apply pm_disconnect.
  - intros Hl. right. exists g'. split; [done|]. by apply Hsame.
  - destruct (fire_cases ok k st) as [Hidle|due t Hk Hdue].
    { intros Hl. right. exists g'. split; [done|]. by apply Hsame. }
    intros Hl. right.
    assert (∃ g, heap st !! l = Some g ∧ players g' = players g
                 ∧ (status g' = status g ∨ status g' = Active ∨ status g' = Finished))
      as (g & Hg & Hp & Hmv).
    { destruct t as [gameId l0|gameId|gameId]; simpl in Hl.
      - destruct (tick_cases k gameId l0 st) as [Hd|g0 Hg0 Hc|g0 Hg0 Hc].
        + exists g'. by auto.
        + simpl in Hl.
          apply alter_lookup_inv in Hl as (g & Hg & [[_ ->]|[_ ->]]); exists g; by auto.
        + apply startSprintGame_heap in Hl as (g1 & Hl & Hp1 & Hs1). simpl in Hl.
          apply alter_lookup_inv in Hl as (g & Hg & [[_ ->]|[_ ->]]); exists g;
            (split; [done|]); (split; [done|]); simpl in Hs1; tauto.
      - unfold endSprintGame in Hl.
        change (get_game (with_timers (delete k (timers st)) st) gameId)
          with (get_game st gameId) in Hl.
        destruct (get_game st gameId) as [[l0 g0]|].
        + rewrite persist_players in Hl. simpl in Hl.
          apply alter_lookup_inv in Hl as (g & Hg & [[_ ->]|[_ ->]]); exists g; by auto.
        + exists g'. by auto.
      - exists g'. by auto. }
    exists g. split; [done|]. split.
    + unfold status_moves. tauto.
    + by apply not_tap_same.
Qed.

(** ** Counting taps *)

Lemma startSprintGame_heap_length gameId st :
  length (heap (startSprintGame gameId st)) = length (heap st).
Proof.
  unfold startSprintGame. destruct (get_game st gameId) as [[l g]|]; simpl; [|done].
  by rewrite length_alter.
Qed.

Lemma step_heap_length ok st e :
  (length (heap st) ≤ length (heap (step ok st e)))%nat.
Proof.
  destruct e as [gameId|socket data|socket gameId|socket|ms|k]; simpl.
  - rewrite length_app. lia.
  - destruct (join_cases socket data st); simpl; try done.
    case_decide; simpl; by rewrite ?length_alter.
  - destruct (tap_cases socket gameId st); simpl; by rewrite ?length_alter.
  - destruct (disconnect_cases socket st); simpl; by rewrite ?length_alter.
  - done.
  - destruct (fire_cases ok k st) as [Hidle|due t Hk Hdue]; [done|].
    destruct t as [gameId l0|gameId|gameId]; simpl.
    + destruct (tick_cases k gameId l0 st); simpl;
        rewrite ?startSprintGame_heap_length; simpl; by rewrite ?length_alter.
    + unfold endSprintGame.
      change (get_game (with_timers (delete k (timers st)) st) gameId)
        with (get_game st gameId).
      destruct (get_game st gameId) as [[l0 g0]|]; [|done].
      rewrite persist_players. simpl. by rewrite length_alter.
    + done.
Qed.

Lemma step_heap_None ok st e l :
  heap (step ok st e) !! l = None → heap st !! l = None.
Proof.
  rewrite !lookup_ge_None. pose proof (step_heap_length ok st e). lia.
Qed.

Lemma hit_range st e socket l : hit st e socket l = 0 ∨ hit st e socket l = 1.
Proof. unfold hit. destruct e; auto. case_decide; auto. Qed.

Lemma hit_active st e socket l g :
  heap st !! l = Some g → hit st e socket l ≠ 0 → status g = Active.
Proof.
  intros Hg. unfold hit. destruct e as [| |s gameId| | |]; try done.
  case_decide as Hd; [|done]. intros _.
  destruct Hd as [_ (g1 & p & [_ Hg1]%get_game_Some & Hst & _)%tap_target_Some].
  congruence.
Qed.

Lemma hit_tap st socket gameId l g p :
  get_game st gameId = Some (l, g) →
  status g = Active →
  map_get socket (players g) = Some p →
  hit st (Tap socket gameId) socket l = 1.
Proof.
  intros Hget Hst Hp. unfold hit. rewrite decide_True; [done|].
  split; [done|]. apply tap_target_Some. by exists g, p.
Qed.

Lemma count_inv_ext st c c' :
  (∀ socket l, c socket l = c' socket l) → count_inv st c → count_inv st c'.
Proof.
  intros Hc Hinv l. specialize (Hinv l). destruct (heap st !! l) as [g|].
  - destruct Hinv as (Hnd & Hzero & Htaps). split_and!; [done| |].
    + intros Hs socket. rewrite <- Hc. by apply Hzero.
    + intros socket p Hp. rewrite <- Hc. by apply Htaps.
  - intros socket. rewrite <- Hc. by apply Hinv.
Qed.

Lemma count_inv_step ok st e c :
  count_inv st c →
  count_inv (step ok st e) (λ socket l, c socket l + hit st e socket l).
Proof.
  intros Hinv l. destruct (heap (step ok st e) !! l) as [g'|] eqn:Hl.
  - destruct (step_heap ok st e l g' Hl)
      as [[Hnone (gameId & -> & -> & ->)]|(g & Hg & Hmv & Hpm)].
    + specialize (Hinv (length (heap st))). rewrite Hnone in Hinv. simpl.
      split_and!; [constructor| |done].
      intros _ socket. rewrite Hinv. lia.
    + specialize (Hinv l). rewrite Hg in Hinv. destruct Hinv as (Hnd & Hzero & Htaps).
      assert (Hz : status g' = Waiting ∨ status g' = Countdown →
                   ∀ socket, c socket l + hit st e socket l = 0).
      { intros Hs socket.
        assert (status g = Waiting ∨ status g = Countdown) as Hs0.
        { destruct Hmv as [Heq|[[? _]|[?|?]]];
            [by rewrite <- Heq|by left|destruct Hs; congruence..]. }
        rewrite (Hzero Hs0).
        destruct (decide (hit st e socket l = 0)) as [->|Hne]; [done|].
        pose proof (hit_active st e socket l g Hg Hne). destruct Hs0; congruence. }
      split_and!; [|done|].
      * destruct Hpm as [e l g g' Hp _|socket data l g g' _ _ Hp
                        |socket gameId l g g' p _ _ _ Hp|socket l g g' Hp];
          rewrite Hp; auto using map_set_NoDup, map_delete_NoDup.
      * intros s q Hq.
        destruct Hpm as [e l g g' Hp Hnt|socket data l g g' Hget Hst Hp
                        |socket gameId l g g' p Hget Hst Hp0 Hp|socket l g g' Hp];
          rewrite Hp in Hq.
        -- rewrite (Htaps s q Hq).
           assert (hit st e s l = 0) as ->; [|lia].
           unfold hit. destruct e as [| |s' i| | |]; try done.
           rewrite decide_False; [done|]. intros [_ Ht]. by eapply Hnt.
        -- simpl. destruct (decide (socket = s)) as [->|Hne].
           ++ rewrite map_get_set_eq in Hq. injection Hq as <-. simpl.
              rewrite (Hzero Hst). lia.
           ++ rewrite map_get_set_ne in Hq by done. rewrite (Htaps s q Hq). lia.
        -- destruct (decide (socket = s)) as [->|Hne].
           ++ rewrite map_get_set_eq in Hq. injection Hq as <-.
              rewrite (hit_tap st s gameId l g p) by done. simpl.
              by rewrite (Htaps s p Hp0).
           ++ rewrite map_get_set_ne in Hq by done. rewrite (Htaps s q Hq).
              unfold hit. rewrite decide_False; [lia|]. by intros [? _].
        -- simpl. destruct (decide (socket = s)) as [->|Hne].
           ++ by rewrite map_get_delete_eq in Hq.
           ++ rewrite map_get_delete_ne in Hq by done. rewrite (Htaps s q Hq). lia.
  - apply step_heap_None in Hl. specialize (Hinv l). rewrite Hl in Hinv.
    intros socket. rewrite Hinv.
    destruct (decide (hit st e socket l = 0)) as [->|Hne]; [done|].
    unfold hit in Hne. destruct e as [| |s gameId| | |]; try done.
    case_decide as Hd; [|done].
    destruct Hd as [_ (g1 & p & [_ Hg1]%get_game_Some & _)%tap_target_Some].
    congruence.
Qed.

Lemma count_inv_run ok evs st c :
  count_inv st c →
  count_inv (run ok st evs) (λ socket l, c socket l + accepted_taps ok st evs socket l).
Proof.
  revert st c. induction evs as [|e evs IH]; intros st c Hinv.
  - simpl. eapply count_inv_ext; [|exact Hinv]. intros. lia.
  - rewrite run_cons. eapply count_inv_ext;
      [|apply (IH _ _ (count_inv_step ok st e c Hinv))].
    intros socket l. simpl. lia.
Qed.

Lemma count_inv_init t0 : count_inv (init t0) (λ _ _, 0).
Proof. intros l. by simpl. Qed.

(** C2.  A tap for a registered, active game from a socket that is one of
    its players raises that player's taps by exactly one, leaves every
    other player and every other part of the state alone, and broadcasts
    'tap-update' with the new count.  A tap for an unknown game, for a game
    that is not active, or from a socket that is not a player of the game
    returns the state unchanged (nothing is emitted).  Hence, in every
    state reached from a fresh process, the taps stored for a player of a
    game object equal the number of accepted taps of that socket for that
    object. *)
Theorem tap_counts (ok : nat → bool) :
  (∀ st socket gameId l g p,
     get_game st gameId = Some (l, g) →
     status g = Active →
     map_get socket (players g) = Some p →
     let st' := tap socket gameId st in
     let p' := set_taps (taps p + 1) p in
     heap st' = <[l := set_players (map_set socket p' (players g)) g]> (heap st)
     ∧ map_get socket (map_set socket p' (players g)) = Some p'
     ∧ (∀ s, s ≠ socket →
             map_get s (map_set socket p' (players g)) = map_get s (players g))
     ∧ emitted st' =
         emitted st ++
           [Emission (ToRoom gameId) (room_members st gameId)
              (TapUpdate socket (username p) (taps p + 1))]
     ∧ sprintGames st' = sprintGames st
     ∧ activePlayers st' = activePlayers st
     ∧ sprint_results st' = sprint_results st
     ∧ timers st' = timers st)
  ∧ (∀ st socket gameId,
       (get_game st gameId = None
        ∨ ∃ l g, get_game st gameId = Some (l, g)
                 ∧ (status g ≠ Active ∨ map_get socket (players g) = None)) →
       tap socket gameId st = st)
  ∧ (∀ t0 evs l g socket p,
       heap (run ok (init t0) evs) !! l = Some g →
       map_get socket (players g) = Some p →
       taps p = accepted_taps ok (init t0) evs socket l).
Proof.
  split_and!.
  - intros st socket gameId l g p Hget Hst Hp. simpl.
    pose proof Hget as [_ Hg]%get_game_Some.
    unfold tap. rewrite Hget, bool_decide_eq_false_2, Hp by (by intros ?).
    simpl. split_and!; try done.
    + by apply alter_at.
    + apply map_get_set_eq.
    + intros s Hs. by apply map_get_set_ne.
  - intros st socket gameId [Hnone|(l & g & Hget & Hno)]; unfold tap.
    + by rewrite Hnone.
    + rewrite Hget. destruct Hno as [Hst|Hp].
      * by rewrite bool_decide_eq_true_2.
      * case_bool_decide; [done|]. by rewrite Hp.
  - intros t0 evs l g socket p Hg Hp.
    pose proof (count_inv_run ok evs (init t0) _ (count_inv_init t0) l) as Hinv.
    rewrite Hg in Hinv. destruct Hinv as (_ & _ & Htaps).
    rewrite (Htaps socket p Hp). lia.
Qed.

Lemma tap_counts_witness :
  accepted_taps db_fine (init 0) (demo_joins ++ demo_ticks ++ demo_taps) "alice" 0 = 2.
Proof.
  assert (Hg : heap (run db_fine (init 0) (demo_joins ++ demo_ticks ++ demo_taps)) !! 0%nat
               = Some (demo_game 2 1)) by (vm_compute; reflexivity).
  assert (Hp : map_get "alice" (players (demo_game 2 1)) = Some (demo_alice 2))
    by reflexivity.
  symmetry.
  exact (proj2 (proj2 (tap_counts db_fine)) 0 _ 0%nat _ "alice" _ Hg Hp).
Defined.

(** ** The connection tracker *)

Lemma startSprintGame_frame gameId st :
  sprintGames (startSprintGame gameId st) = sprintGames st
  ∧ activePlayers (startSprintGame gameId st) = activePlayers st.
Proof. unfold startSprintGame. by destruct (get_game st gameId) as [[l g]|]. Qed.

Lemma endSprintGame_frame ok gameId st :
  sprintGames (endSprintGame ok gameId st) = sprintGames st
  ∧ activePlayers (endSprintGame ok gameId st) = activePlayers st.
Proof.
  unfold endSprintGame. destruct (get_game st gameId) as [[l g]|]; [|done].
  by rewrite persist_players.
Qed.

Lemma countdown_tick_frame k gameId l st :
  sprintGames (countdown_tick k gameId l st) = sprintGames st
  ∧ activePlayers (countdown_tick k gameId l st) = activePlayers st.
Proof.
  destruct (tick_cases k gameId l st) as [Hg|g Hg Hc|g Hg Hc]; [done|done|].
  match goal with
  | |- context [startSprintGame ?i ?s] => destruct (startSprintGame_frame i s) as [-> ->]
  end.
  done.
Qed.

Lemma step_registry ok st e gameId l :
  sprintGames (step ok st e) !! gameId = Some l →
  sprintGames st !! gameId = Some l
  ∨ (e = PostSprintStart gameId ∧ l = length (heap st)).
Proof.
  destruct e as [i|socket data|socket i|socket|ms|k]; simpl.
  - rewrite lookup_insert. case_decide as Hi; [|by left].
    subst i. intros [= <-]. by right.
  - destruct (join_cases socket data st); simpl; try by left.
    case_decide; by left.
  - destruct (tap_cases socket i st); by left.
  - destruct (disconnect_cases socket st); by left.
  - by left.
  - destruct (fire_cases ok k st) as [Hidle|due t Hk Hdue]; [by left|].
    destruct t as [i l0|i|i]; simpl.
    + destruct (countdown_tick_frame k i l0 st) as [-> _]. by left.
    + destruct (endSprintGame_frame ok i (with_timers (delete k (timers st)) st))
        as [-> _]. by left.
    + rewrite lookup_delete. case_decide; [done|by left].
Qed.

Lemma step_tracker ok st e c info :
  activePlayers (step ok st e) !! c = Some info →
  activePlayers st !! c = Some info
  ∨ ∃ data l g,
      e = JoinSprint c data
      ∧ info = PlayerInfo (jd_gameId data) (jd_username data)
      ∧ get_game st (jd_gameId data) = Some (l, g)
      ∧ (status g = Waiting ∨ status g = Countdown).
Proof.
  destruct e as [i|socket data|socket i|socket|ms|k]; simpl.
  - by left.
  - destruct (join_cases socket data st) as [Hget|l0 g0 Hget Hst|l0 g0 Hget Hst ps st4];
      [by left|by left|].
    assert (activePlayers
              (if decide (status g0 = Waiting)
               then schedule 1000 (CountdownInterval (jd_gameId data) l0)
                      (update_game l0
                         (λ g, set_countdown 5 (set_status Countdown g)) st4)
               else st4)
            = <[socket := PlayerInfo (jd_gameId data) (jd_username data)]>
                (activePlayers st)) as -> by (by case_decide).
    rewrite lookup_insert. case_decide as Hc; [|by left].
    subst c. intros [= <-]. right. by exists data, l0, g0.
  - destruct (tap_cases socket i st); by left.
  - destruct (disconnect_cases socket st) as [Hinfo|i Hinfo Hget|i l0 g0 Hinfo Hget];
      [by left|by left|].
    simpl. rewrite lookup_delete. case_decide; [done|by left].
  - by left.
  - destruct (fire_cases ok k st) as [Hidle|due t Hk Hdue]; [by left|].
    destruct t as [i l0|i|i]; simpl.
    + destruct (countdown_tick_frame k i l0 st) as [_ ->]. by left.
    + destruct (endSprintGame_frame ok i (with_timers (delete k (timers st)) st))
        as [_ ->]. by left.
    + by left.
Qed.

Lemma members_kept st e l g g' c :
  players_move st e l g g' →
  (∀ s, e = Disconnect s → c ≠ s) →
  is_Some (map_get c (players g)) →
  is_Some (map_get c (players g')).
Proof.
  intros Hpm Hd Hc.
  destruct Hpm as [e l g g' Hp _|socket data l g g' _ _ Hp
                  |socket gameId l g g' p _ _ _ Hp|socket l g g' Hp]; rewrite Hp.
  - done.
  - destruct (decide (socket = c)) as [->|Hne].
    + by rewrite map_get_set_eq.
    + by rewrite map_get_set_ne.
  - destruct (decide (socket = c)) as [->|Hne].
    + by rewrite map_get_set_eq.
    + by rewrite map_get_set_ne.
  - rewrite map_get_delete_ne; [done|]. intros ->. by eapply Hd.
Qed.

Lemma join_admitted_game socket data st l g :
  get_game st (jd_gameId data) = Some (l, g) →
  status g = Waiting ∨ status g = Countdown →
  activePlayers (join_sprint socket data st) !! socket =
    Some (PlayerInfo (jd_gameId data) (jd_username data))
  ∧ ∃ g', get_game (join_sprint socket data st) (jd_gameId data) = Some (l, g')
          ∧ players g' =
              map_set socket
                (Player socket (display_name socket (jd_username data)) 0 true)
                (players g).
Proof.
  intros Hget Hst. pose proof Hget as [Hreg Hg]%get_game_Some.
  destruct (join_cases socket data st) as [Hget'|l0 g0 Hget' Hst'|l0 g0 Hget' Hst' ps st4].
  - congruence.
  - rewrite Hget in Hget'. injection Hget' as <- <-.
    destruct Hst, Hst'; congruence.
  - rewrite Hget in Hget'. injection Hget' as <- <-.
    case_decide; simpl; (split; [by rewrite lookup_insert_eq|]); eexists;
      (split; [apply get_game_Some; simpl; split; [done|];
               by rewrite !list_lookup_alter_eq, Hg|done]).
Qed.

Lemma disconnect_registered c st info l g :
  activePlayers st !! c = Some info →
  get_game st (pi_gameId info) = Some (l, g) →
  activePlayers (disconnect c st) !! c = None
  ∧ get_game (disconnect c st) (pi_gameId info) =
      Some (l, set_players (map_delete c (players g)) g).
Proof.
  intros Hinfo Hget. pose proof Hget as [Hreg Hg]%get_game_Some.
  destruct (disconnect_cases c st) as [Hinfo'|i Hinfo' Hget'|i l0 g0 Hinfo' Hget'].
  - congruence.
  - congruence.
  - rewrite Hinfo in Hinfo'. injection Hinfo' as <-.
    rewrite Hget in Hget'. injection Hget' as <- <-. simpl. split.
    + by rewrite lookup_delete_eq.
    + apply get_game_Some. simpl. split; [done|].
      by rewrite list_lookup_alter_eq, Hg.
Qed.

Lemma tracker_inv_step ok used st e :
  tracker_inv used st →
  (∀ gameId, e = PostSprintStart gameId → gameId ∉ used) →
  tracker_inv (created e ∪ used) (step ok st e).
Proof.
  intros (Hreg & Htrk & Hmem) Hfresh. split_and!.
  - intros gameId l Hl.
    destruct (step_registry ok st e gameId l Hl) as [Hold|[-> ->]].
    + destruct (Hreg gameId l Hold) as [Hu Hlt].
      split; [apply elem_of_union; by right|].
      pose proof (step_heap_length ok st e). lia.
    + simpl. split; [apply elem_of_union; left; by apply elem_of_singleton|].
      rewrite length_app. simpl. lia.
  - intros c info Hc.
    destruct (step_tracker ok st e c info Hc)
      as [Hold|(data & l & g & -> & -> & Hget & _)].
    + apply elem_of_union. right. by eapply Htrk.
    + simpl. apply get_game_Some in Hget as [Hr _]. apply Hreg in Hr as [? _].
      apply elem_of_union. by right.
  - intros c info l g' Hc Hget'.
    pose proof Hget' as [Hr' Hg']%get_game_Some.
    destruct (step_tracker ok st e c info Hc)
      as [Hold|(data & l0 & g0 & -> & -> & Hget & Hst)].
    + destruct (step_registry ok st e _ l Hr') as [Hr|[-> ->]].
      * destruct (Hreg _ _ Hr) as [_ Hlt].
        destruct (step_heap ok st e l g' Hg') as [[Hnone _]|(g & Hg & _ & Hpm)].
        { apply lookup_ge_None in Hnone. lia. }
        assert (get_game st (pi_gameId info) = Some (l, g)) as Hget
          by (by apply get_game_Some).
        eapply members_kept; [exact Hpm| |by eapply Hmem].
        intros s -> ->.
        destruct (disconnect_registered s st info l g Hold Hget) as [Hnone _].
        simpl in Hc. congruence.
      * apply Htrk in Hold. by destruct (Hfresh (pi_gameId info)).
    + destruct (join_admitted_game c data st l0 g0 Hget Hst) as [_ (g1 & Hget1 & Hp1)].
      simpl in Hget'. rewrite Hget1 in Hget'. injection Hget' as <- <-.
      by rewrite Hp1, map_get_set_eq.
Qed.

Lemma tracker_inv_run ok evs used st :
  tracker_inv used st →
  fresh_ids used evs →
  ∃ used', tracker_inv used' (run ok st evs).
Proof.
  revert used st. induction evs as [|e evs IH]; intros used st Hinv Hfresh.
  - by exists used.
  - rewrite run_cons. apply (IH (created e ∪ used)).
    + apply tracker_inv_step; [done|]. intros gameId ->. by destruct Hfresh.
    + destruct e; simpl in *; rewrite ?union_empty_l_L; tauto.
Qed.

Lemma tracker_inv_init t0 : tracker_inv ∅ (init t0).
Proof.
  split_and!.
  - intros gameId l H. simpl in H. by rewrite lookup_empty in H.
  - intros c info H. simpl in H. by rewrite lookup_empty in H.
  - intros c info l g H. simpl in H. by rewrite lookup_empty in H.
Qed.

Lemma run_players_NoDup ok t0 evs l g :
  heap (run ok (init t0) evs) !! l = Some g → NoDup (players g).*1.
Proof.
  intros Hg.
  pose proof (count_inv_run ok evs (init t0) _ (count_inv_init t0) l) as Hinv.
  rewrite Hg in Hinv. by destruct Hinv as (? & _).
Qed.

(** C8, as the code has it.  In a run of a fresh process whose create
    requests never repeat an id, every connection the tracker maps to a
    game that is still registered is present in that game's players map.
    In such a state an admitted join stores the tracker entry for the
    joining connection (replacing an older one) and makes it a player; a
    disconnect of a tracked connection whose game is still registered,
    whatever the status of the game, removes both the tracker entry and the
    player record. *)
Theorem tracker_follows_membership (ok : nat → bool) (t0 : Z) (evs : list event) :
  fresh_ids ∅ evs →
  let st := run ok (init t0) evs in
  tracked_are_members st
  ∧ (∀ c data l g,
       get_game st (jd_gameId data) = Some (l, g) →
       status g = Waiting ∨ status g = Countdown →
       activePlayers (join_sprint c data st) !! c =
         Some (PlayerInfo (jd_gameId data) (jd_username data))
       ∧ ∃ g', get_game (join_sprint c data st) (jd_gameId data) = Some (l, g')
               ∧ is_Some (map_get c (players g')))
  ∧ (∀ c info l g,
       activePlayers st !! c = Some info →
       get_game st (pi_gameId info) = Some (l, g) →
       activePlayers (disconnect c st) !! c = None
       ∧ ∃ g', get_game (disconnect c st) (pi_gameId info) = Some (l, g')
               ∧ map_get c (players g') = None).
Proof.
  intros Hfresh st. split_and!.
  - destruct (tracker_inv_run ok evs ∅ (init t0) (tracker_inv_init t0) Hfresh)
      as (used' & _ & _ & Hmem).
    exact Hmem.
  - intros c data l g Hget Hst.
    destruct (join_admitted_game c data st l g Hget Hst) as [Ht (g' & Hget' & Hp)].
    split; [done|]. exists g'. split; [done|]. by rewrite Hp, map_get_set_eq.
  - intros c info l g Hinfo Hget.
    destruct (disconnect_registered c st info l g Hinfo Hget) as [Ht Hget'].
    split; [done|]. eexists. split; [exact Hget'|]. simpl.
    apply map_get_delete_eq. apply get_game_Some in Hget as [_ Hg].
    by eapply run_players_NoDup.
Qed.

Lemma tracker_follows_membership_witness :
  tracked_are_members
    (run db_fine (init 0) (demo_joins ++ demo_ticks ++ [Disconnect "bob"])).
Proof.
  apply (tracker_follows_membership db_fine 0
           (demo_joins ++ demo_ticks ++ [Disconnect "bob"])).
  simpl. split; [|exact I]. apply not_elem_of_empty.
Defined.

(** A socket that joins a second game stays in the players map of the
    first while the tracker only knows the second; and a disconnect that
    arrives after its game left the registry leaves the tracker entry in
    place. *)
Lemma tracker_out_of_step :
  activePlayers demo_two_games !! "alice" = Some (PlayerInfo "g2" (Some "alice"))
  ∧ (players <$> (snd <$> get_game demo_two_games "g1")) =
      Some [("alice", demo_alice 0)]
  ∧ activePlayers demo_evicted !! "alice" = Some (PlayerInfo "g" (Some "alice"))
  ∧ activePlayers (step db_fine demo_evicted (Disconnect "alice")) !! "alice" =
      Some (PlayerInfo "g" (Some "alice")).
Proof. vm_compute. by split_and!. Qed.

(** * Further properties *)

(** ** Player records *)

Lemma elem_of_map_set {V} (k k0 : string) (v v0 : V) (m : list (string * V)) :
  (k, v) ∈ map_set k0 v0 m → (k = k0 ∧ v = v0) ∨ (k, v) ∈ m.
Proof.
  induction m as [|[k' v'] m IH]; simpl.
  - intros [= -> ->]%list_elem_of_singleton. by left.
  - destruct (decide (k0 = k')) as [->|Hne].
    + intros [[= -> ->]|Hin]%elem_of_cons; [by left|].
      right. by right.
    + intros [[= -> ->]|Hin]%elem_of_cons; [right; by left|].
      destruct (IH Hin) as [?|?]; [by left|]. right. by right.
Qed.

Lemma display_name_nonempty socket name : display_name socket name ≠ "".
Proof.
  unfold display_name. destruct name as [n|]; [case_decide|]; done.
Qed.

Lemma roster_ok_step ok st e :
  (∀ l g, heap st !! l = Some g → roster_ok g) →
  ∀ l g, heap (step ok st e) !! l = Some g → roster_ok g.
Proof.
  intros Hinv l g' Hl.
  destruct (step_heap ok st e l g' Hl)
    as [[_ (gameId & _ & _ & ->)]|(g & Hg & _ & Hpm)].
  - split; [constructor|]. intros key p Hin. by apply elem_of_nil in Hin.
  - destruct (Hinv l g Hg) as [Hnd Hok].
    destruct Hpm as [e l g g' Hp _|socket data l g g' _ _ Hp
                    |socket gameId l g g' p _ _ Hget Hp|socket l g g' Hp];
      unfold roster_ok; rewrite Hp.
    + done.
    + split; [by apply map_set_NoDup|].
      intros key p [[-> ->]|Hin]%elem_of_map_set; [|by apply Hok].
      split_and!; [done|done|done|apply display_name_nonempty].
    + split; [by apply map_set_NoDup|].
      intros key q [[-> ->]|Hin]%elem_of_map_set; [|by apply Hok].
      destruct (Hok socket p (map_get_Some_elem _ _ _ Hget)) as (? & ? & ? & ?).
      split_and!; simpl; [done|lia|done|done].
    + split; [by apply map_delete_NoDup|].
      intros key p Hin. apply Hok.
      eapply elem_of_sublist; [exact Hin|apply map_delete_sublist].
Qed.

Lemma roster_ok_run ok evs st :
  (∀ l g, heap st !! l = Some g → roster_ok g) →
  ∀ l g, heap (run ok st evs) !! l = Some g → roster_ok g.
Proof.
  revert st. induction evs as [|e evs IH]; intros st Hinv; [done|].
  rewrite run_cons. apply IH. by apply roster_ok_step.
Qed.

Lemma roster_ok_ids g :
  roster_ok g → player_id <$> map_values (players g) = (players g).*1.
Proof.
  intros [_ Hok]. unfold map_values.
  induction (players g) as [|[k p] m IH]; [done|]. csimpl. f_equal.
  - by destruct (Hok k p) as [? _]; [left|].
  - apply IH. intros key q Hin. apply Hok. by right.
Qed.

(** X1.  In every state a fresh process can reach, each game's players map
    holds a socket at most once, every record sits under its own socket
    id, has a tap count that is not negative, a display name that is not
    empty and [connected = true]; so no roster or ranking lists a socket
    twice, and no record is ever marked disconnected. *)
Theorem player_records_well_formed (ok : nat → bool) (t0 : Z) (evs : list event)
    (l : nat) (g : game) :
  heap (run ok (init t0) evs) !! l = Some g →
  NoDup (players g).*1
  ∧ (∀ key p, (key, p) ∈ players g →
       player_id p = key ∧ 0 ≤ taps p ∧ connected p = true ∧ username p ≠ "")
  ∧ NoDup (player_id <$> map_values (players g))
  ∧ NoDup (player_id <$> js_sort by_taps_desc (map_values (players g))).
Proof.
  intros Hg.
  assert (roster_ok g) as Hok.
  { eapply (roster_ok_run ok evs (init t0)); [|exact Hg].
    intros l0 g0 H0. simpl in H0. by rewrite lookup_nil in H0. }
  pose proof Hok as [Hnd Hrec]. split_and!; [done|exact Hrec| |].
  - by rewrite roster_ok_ids.
  - rewrite js_sort_perm. by rewrite roster_ok_ids.
Qed.

Lemma player_records_well_formed_witness :
  NoDup (players (demo_game 2 1)).*1.
Proof.
  assert (H : heap (run db_fine (init 0) (demo_joins ++ demo_ticks ++ demo_taps))
                !! 0%nat = Some (demo_game 2 1)) by (vm_compute; reflexivity).
  exact (proj1 (player_records_well_formed db_fine 0 _ 0%nat _ H)).
Defined.


(** ** Creating and joining *)

Lemma get_game_post_start gameId st :
  get_game (post_sprint_start gameId st) gameId =
    Some (length (heap st), new_game gameId).
Proof.
  apply get_game_Some. simpl. split; [by rewrite lookup_insert_eq|].
  by rewrite lookup_app_r, Nat.sub_diag by lia.
Qed.

(** X2.  A create request followed by the join of a socket always yields a
    game in countdown with five seconds left, whose only player is that
    socket with zero taps; the interval is pending one second ahead, the
    tracker points to the game, and the roster sent to the joiner still
    carries status 'waiting'.  This holds in any state, also when the id
    was in use before. *)
Theorem create_then_join (ok : nat → bool) (socket : string) (data : join_data)
    (st : server) :
  let gameId := jd_gameId data in
  let st' := run ok st [PostSprintStart gameId; JoinSprint socket data] in
  let p := Player socket (display_name socket (jd_username data)) 0 true in
  get_game st' gameId =
    Some (length (heap st), Game gameId Countdown [(socket, p)] None None 5 15000)
  ∧ timers st' =
      <[next_timer st := (now st + 1000, CountdownInterval gameId (length (heap st)))]>
        (timers st)
  ∧ activePlayers st' !! socket = Some (PlayerInfo gameId (jd_username data))
  ∧ emitted st' =
      emitted st ++
        [Emission (ToRoom gameId) ({[socket]} ∪ room_members st gameId)
           (PlayersUpdated [p] Waiting)].
Proof.
  intros gameId st' p. subst st'.
  change (run ok st [PostSprintStart gameId; JoinSprint socket data])
    with (join_sprint socket data (post_sprint_start gameId st)).
  pose proof (get_game_post_start gameId st) as Hget.
  destruct (join_cases socket data (post_sprint_start gameId st))
    as [Hget'|l0 g0 Hget' Hst|l0 g0 Hget' Hst ps st4].
  - fold gameId in Hget'. congruence.
  - fold gameId in Hget'. rewrite Hget in Hget'. injection Hget' as <- <-.
    by destruct Hst.
  - fold gameId in Hget'. rewrite Hget in Hget'. injection Hget' as <- <-.
    rewrite decide_True by done. simpl. split_and!.
    + apply get_game_Some. simpl. split; [by rewrite lookup_insert_eq|].
      rewrite !list_lookup_alter_eq.
      by rewrite lookup_app_r, Nat.sub_diag by lia.
    + done.
    + by rewrite lookup_insert_eq.
    + by rewrite room_members_join.
Qed.

(** ** Events and the games they are addressed to *)

Lemma startSprintGame_local gameId st l :
  fst <$> get_game st gameId ≠ Some l →
  heap (startSprintGame gameId st) !! l = heap st !! l.
Proof.
  unfold startSprintGame. destruct (get_game st gameId) as [[l0 g0]|]; [|done].
  simpl. intros Hne. rewrite list_lookup_alter_ne; [done|]. by intros ->.
Qed.

Lemma endSprintGame_local ok gameId st l :
  fst <$> get_game st gameId ≠ Some l →
  heap (endSprintGame ok gameId st) !! l = heap st !! l.
Proof.
  unfold endSprintGame. destruct (get_game st gameId) as [[l0 g0]|]; [|done].
  rewrite persist_players. simpl. intros Hne.
  rewrite list_lookup_alter_ne; [done|]. by intros ->.
Qed.

Lemma not_in_option_list {A} (o : option A) (x : A) :
  x ∉ option_list o ↔ o ≠ Some x.
Proof.
  destruct o as [y|]; simpl.
  - rewrite list_elem_of_singleton. split; [intros H [= ->]; done|].
    intros H ->. done.
  - split; [done|]. intros _. apply not_elem_of_nil.
Qed.

(** An event leaves every game object it is not addressed to as it is. *)
Lemma step_untouched ok st e l g :
  heap st !! l = Some g →
  l ∉ touched st e →
  heap (step ok st e) !! l = Some g.
Proof.
  intros Hg Hnot.
  destruct e as [gameId|socket data|socket gameId|socket|ms|k]; simpl in *.
  - rewrite lookup_app_l; [done|]. by eapply lookup_lt_Some.
  - apply not_in_option_list in Hnot.
    destruct (join_cases socket data st) as [Hget|l0 g0 Hget Hst|l0 g0 Hget Hst ps st4];
      [done|done|].
    rewrite Hget in Hnot. simpl in Hnot.
    assert (l0 ≠ l) by (intros ->; done).
    case_decide; simpl; by rewrite ?list_lookup_alter_ne.
  - apply not_in_option_list in Hnot.
    destruct (tap_cases socket gameId st) as [Hign|l0 g0 p Hget Hst Hp]; [done|].
    rewrite Hget in Hnot. simpl in Hnot.
    assert (l0 ≠ l) by (intros ->; done).
    simpl. by rewrite list_lookup_alter_ne.
  - apply not_in_option_list in Hnot.
    destruct (disconnect_cases socket st) as [Hinfo|info Hinfo Hget|info l0 g0 Hinfo Hget];
      [done|done|].
    rewrite Hinfo in Hnot. simpl in Hnot. rewrite Hget in Hnot. simpl in Hnot.
    assert (l0 ≠ l) by (intros ->; done).
    simpl. by rewrite list_lookup_alter_ne.
  - done.
  - destruct (fire_cases ok k st) as [Hidle|due t Hk Hdue]; [done|].
    rewrite Hk in Hnot.
    destruct t as [gameId l0|gameId|gameId]; simpl.
    + apply not_elem_of_cons in Hnot as [Hl0 Hnot].
      apply not_in_option_list in Hnot.
      destruct (tick_cases k gameId l0 st) as [Hd|g0 Hg0 Hc|g0 Hg0 Hc].
      * done.
      * simpl. by rewrite list_lookup_alter_ne.
      * rewrite startSprintGame_local.
        -- simpl. by rewrite list_lookup_alter_ne.
        -- unfold get_game in *. simpl.
           destruct (sprintGames st !! gameId) as [l1|]; [|done]. simpl in *.
           rewrite list_lookup_alter.
           destruct (decide (l0 = l1)) as [->|Hne1].
           ++ rewrite Hg0 in *. simpl in *. done.
           ++ done.
    + apply not_in_option_list in Hnot.
      by rewrite (endSprintGame_local ok gameId
                    (with_timers (delete k (timers st)) st) l Hnot).
    + done.
Qed.

(** X3.  An event changes at most the game objects it is addressed to
    (see [touched]): every other existing game object is exactly the same
    afterwards.  And in every state, whatever objects exist and whichever
    of them are addressed, a socket event (join, tap, disconnect) leaves
    the registry, the results table with its count of writes, and the
    clock as they are. *)
Theorem events_are_local (ok : nat → bool) (st : server) (e : event) :
  (∀ l g, heap st !! l = Some g → l ∉ touched st e →
          heap (step ok st e) !! l = Some g)
  ∧ (client_event e = true →
       sprintGames (step ok st e) = sprintGames st
       ∧ sprint_results (step ok st e) = sprint_results st
       ∧ db_calls (step ok st e) = db_calls st
       ∧ now (step ok st e) = now st).
Proof.
  split.
  - intros l g. apply step_untouched.
  - destruct e as [gameId|socket data|socket gameId|socket|ms|k]; simpl;
      try discriminate; intros _.
    + destruct (join_cases socket data st) as [Hget|l0 g0 Hget Hst|l0 g0 Hget Hst ps st4];
        [done|done|].
      case_decide; done.
    + by destruct (tap_cases socket gameId st).
    + by destruct (disconnect_cases socket st).
Qed.

Lemma events_are_local_witness :
  heap (step db_fine demo_two_games (Tap "alice" "g1")) !! 1%nat =
    heap demo_two_games !! 1%nat
  ∧ sprintGames (step db_fine (init 0) (Disconnect "alice")) = sprintGames (init 0).
Proof.
  assert (Hg : heap demo_two_games !! 1%nat =
               Some (Game "g2" Countdown [("alice", demo_alice 0)] None None 5 15000))
    by (vm_compute; reflexivity).
  assert (Hnot : 1%nat ∉ touched demo_two_games (Tap "alice" "g1")).
  { vm_compute. intros Hin. apply list_elem_of_singleton in Hin. discriminate. }
  split.
  - rewrite Hg.
    exact (proj1 (events_are_local db_fine demo_two_games (Tap "alice" "g1"))
             1%nat _ Hg Hnot).
  - exact (proj1 (proj2 (events_are_local db_fine (init 0) (Disconnect "alice"))
                    eq_refl)).
Defined.


(** ** Leaving during a game *)



(** ** Stored results and the broadcast ranking *)




(** ** The countdown, tick by tick *)

Lemma set_countdown_same g : set_countdown (countdown g) g = g.
Proof. by destruct g. Qed.

Lemma tick_events_S k n : tick_events k (S n) = [Elapse 1000; Fire k] ++ tick_events k n.
Proof. done. Qed.

Lemma countdown_from_S c n : countdown_from c (S n) = c :: countdown_from (c - 1) n.
Proof.
  unfold countdown_from. simpl. f_equal; [lia|].
  rewrite <- fmap_S_seq, <- list_fmap_compose. apply list_fmap_ext.
  intros i x _. simpl. lia.
Qed.

Lemma countdown_from_snoc c n :
  countdown_from c (S n) = countdown_from c n ++ [c - Z.of_nat n].
Proof. unfold countdown_from. by rewrite seq_S, fmap_app. Qed.

Lemma ticks_before_start ok gameId l k n :
  ∀ st g due,
  get_game st gameId = Some (l, g) →
  timers st !! k = Some (due, CountdownInterval gameId l) →
  due ≤ now st + 1000 →
  Z.of_nat n ≤ countdown g →
  let st' := run ok st (tick_events k n) in
  get_game st' gameId = Some (l, set_countdown (countdown g - Z.of_nat n) g)
  ∧ (∃ due', timers st' !! k = Some (due', CountdownInterval gameId l)
             ∧ due' ≤ now st' + 1000)
  ∧ next_timer st' = next_timer st
  ∧ rooms st' = rooms st
  ∧ now st' = now st + 1000 * Z.of_nat n
  ∧ emitted st' =
      emitted st ++
        ((λ c, Emission (ToRoom gameId) (room_members st gameId) (CountdownTick c))
           <$> countdown_from (countdown g) n).
Proof.
  induction n as [|n IH]; intros st g due Hget Hk Hdue Hn.
  - simpl. rewrite Z.sub_0_r, set_countdown_same, app_nil_r.
    split_and!; try done; [by exists due|lia].
  - rewrite tick_events_S, run_app.
    change (run ok st [Elapse 1000; Fire k])
      with (fire ok k (with_now (now st + Z.max 0 1000) st)).
    set (st0 := with_now (now st + Z.max 0 1000) st).
    pose proof Hget as [Hreg Hg]%get_game_Some.
    assert (Hfire : fire ok k st0 = countdown_tick k gameId l st0).
    { unfold fire. change (timers st0) with (timers st). rewrite Hk.
      destruct (Z.leb_spec due (now st0)) as [|Hlt]; [done|]. simpl in Hlt. lia. }
    rewrite Hfire, (countdown_tick_continue k gameId l st0 g) by (done || lia).
    set (st1 := with_timers _ _).
    assert (Hget1 : get_game st1 gameId = Some (l, set_countdown (countdown g - 1) g)).
    { apply get_game_Some. simpl. split; [done|].
      by rewrite list_lookup_alter_eq, Hg. }
    assert (Hk1 : timers st1 !! k = Some (now st1 + 1000, CountdownInterval gameId l))
      by (simpl; by rewrite lookup_insert_eq).
    destruct (IH st1 (set_countdown (countdown g - 1) g) (now st1 + 1000) Hget1 Hk1)
      as (Hget' & Hk' & Hn' & Hr' & Hnow' & Hem'); [lia|simpl; lia|].
    split_and!.
    + rewrite Hget'. simpl. do 2 f_equal. destruct g. unfold set_countdown. simpl.
      f_equal. lia.
    + exact Hk'.
    + by rewrite Hn'.
    + by rewrite Hr'.
    + rewrite Hnow'. simpl. lia.
    + rewrite Hem', countdown_from_S. simpl. by rewrite <- app_assoc.
Qed.

(** X6.  The countdown of a registered game that holds [c >= 0] seconds:
    each of the first [c] ticks only lowers the seconds by one, so after
    [m <= c] ticks the game has [c - m] seconds and is otherwise as before;
    tick [c + 1] starts the game.  The room has then been sent the seconds
    [c, c - 1, ..., 0], one per tick, followed by 'game-started', and
    [c + 1] seconds have passed. *)
Theorem countdown_broadcasts (ok : nat → bool) (gameId : string) (l k : nat)
    (st : server) (g : game) (due : Z) :
  get_game st gameId = Some (l, g) →
  timers st !! k = Some (due, CountdownInterval gameId l) →
  due ≤ now st + 1000 →
  0 ≤ countdown g →
  let n := Z.to_nat (countdown g) in
  let sent c := Emission (ToRoom gameId) (room_members st gameId) (CountdownTick c) in
  (∀ m, (m ≤ n)%nat →
     get_game (run ok st (tick_events k m)) gameId =
       Some (l, set_countdown (countdown g - Z.of_nat m) g))
  ∧ (let st' := run ok st (tick_events k (S n)) in
     emitted st' =
       emitted st ++ (sent <$> countdown_from (countdown g) (S n)) ++
         [Emission (ToRoom gameId) (room_members st gameId)
            (GameStarted (gameDuration g))]
     ∧ last (countdown_from (countdown g) (S n)) = Some 0
     ∧ now st' = now st + 1000 * (countdown g + 1)
     ∧ ∃ g', get_game st' gameId = Some (l, g') ∧ status g' = Active
             ∧ startTime g' = Some (now st')
             ∧ endTime g' = Some (now st' + gameDuration g)
             ∧ players g' = players g).
Proof.
  intros Hget Hk Hdue Hc n sent. split.
  - intros m Hm.
    by destruct (ticks_before_start ok gameId l k m st g due Hget Hk Hdue)
      as (? & _); [lia|].
  - destruct (ticks_before_start ok gameId l k n st g due Hget Hk Hdue)
      as (Hget1 & (due1 & Hk1 & Hdue1) & Hn1 & Hr1 & Hnow1 & Hem1); [lia|].
    assert (tick_events k (S n) = tick_events k n ++ [Elapse 1000; Fire k]) as ->.
    { unfold tick_events. by rewrite replicate_S_end, concat_app. }
    rewrite run_app. set (st1 := run ok st (tick_events k n)) in *.
    change (run ok st1 [Elapse 1000; Fire k])
      with (fire ok k (with_now (now st1 + Z.max 0 1000) st1)).
    set (st2 := with_now (now st1 + Z.max 0 1000) st1).
    pose proof Hget1 as [Hreg1 Hg1]%get_game_Some.
    set (g1 := set_countdown (countdown g - Z.of_nat n) g) in *.
    assert (Hc1 : countdown g1 = 0) by (simpl; lia).
    assert (Hfire : fire ok k st2 = countdown_tick k gameId l st2).
    { unfold fire. change (timers st2) with (timers st1). rewrite Hk1.
      destruct (Z.leb_spec due1 (now st2)) as [|Hlt]; [done|]. simpl in Hlt. lia. }
    rewrite Hfire, (countdown_tick_last k gameId l st2 g1) by (done || lia).
    rewrite (startSprintGame_at gameId _ l (set_countdown (countdown g1 - 1) g1))
      by (apply get_game_Some; simpl; by rewrite list_lookup_alter_eq, Hg1).
    rewrite !countdown_from_snoc, last_snoc. split_and!.
    + simpl. rewrite Hem1, fmap_app, <- !app_assoc. simpl.
      unfold room_members. simpl. by rewrite Hr1.
    + f_equal. lia.
    + simpl. rewrite Hnow1. lia.
    + eexists. split_and!.
      * apply get_game_Some. simpl. split; [done|].
        by rewrite !list_lookup_alter_eq, Hg1.
      * done.
      * done.
      * done.
      * done.
Qed.

Lemma countdown_broadcasts_witness :
  emitted (run db_fine demo_countdown (tick_events 0 6)) =
    emitted demo_countdown ++
      ((λ c, Emission (ToRoom "g") (room_members demo_countdown "g") (CountdownTick c))
         <$> countdown_from 5 6) ++
      [Emission (ToRoom "g") (room_members demo_countdown "g") (GameStarted 15000)].
Proof.
  assert (Hget : get_game demo_countdown "g" =
                 Some (0%nat,
                       Game "g" Countdown [("alice", demo_alice 0); ("bob", demo_bob 0)]
                         None None 5 15000))
    by (vm_compute; reflexivity).
  assert (Hk : timers demo_countdown !! 0%nat = Some (1000, CountdownInterval "g" 0))
    by (vm_compute; reflexivity).
  assert (Hdue : 1000 ≤ now demo_countdown + 1000) by (vm_compute; discriminate).
  exact (proj1 (proj2
    (countdown_broadcasts db_fine "g" 0 0 demo_countdown _ 1000 Hget Hk Hdue
       ltac:(simpl; lia)))).
Defined.


(** ** The life cycle invariant *)

Lemma get_game_same st st' gameId :
  heap st' = heap st → sprintGames st' = sprintGames st →
  get_game st' gameId = get_game st gameId.
Proof. intros Hh Hr. unfold get_game. by rewrite Hh, Hr. Qed.

Lemma lifecycle_ext used st st' :
  heap st' = heap st →
  sprintGames st' = sprintGames st →
  timers st' = timers st →
  next_timer st' = next_timer st →
  sprint_results st' = sprint_results st →
  lifecycle used st → lifecycle used st'.
Proof.
  intros Hh Hr Ht Hn Hs [H1 H2 H3 H4 H5 H6].
  assert (Hgg : ∀ i, get_game st' i = get_game st i)
    by (intros i; by apply get_game_same).
  constructor.
  - intros gameId l. rewrite Hr, Hh. apply H1.
  - intros l g. rewrite Hh. apply H2.
  - intros k x. rewrite Ht, Hn. apply H3.
  - intros k due t. rewrite Ht, Hgg. apply H4.
  - intros k k' due due' t t'. rewrite Ht. apply H5.
  - intros r. rewrite Hs. intros Hr'. destruct (H6 r Hr') as [? Hfin].
    split; [done|]. intros l g. rewrite Hgg. apply Hfin.
Qed.

Lemma lifecycle_mono used used' st :
  used ⊆ used' → lifecycle used st → lifecycle used' st.
Proof.
  intros Hsub [H1 H2 H3 H4 H5 H6]. constructor; try done.
  - intros gameId l Hl. destruct (H1 gameId l Hl) as [? ?]. split; [|done].
    by apply Hsub.
  - intros r Hr. destruct (H6 r Hr) as [? ?]. split; [|done]. by apply Hsub.
Qed.

(** Replacing the object of a registered game. *)
Lemma get_game_move used st st' gameId0 l0 g0 g0' :
  lifecycle used st →
  get_game st gameId0 = Some (l0, g0) →
  heap st' = <[l0 := g0']> (heap st) →
  sprintGames st' = sprintGames st →
  ∀ gameId,
    get_game st' gameId =
      if decide (gameId = gameId0) then Some (l0, g0') else get_game st gameId.
Proof.
  intros HL [Hreg0 Hg0]%get_game_Some Hh Hr gameId.
  assert (Hlt : (l0 < length (heap st))%nat) by by eapply lookup_lt_Some.
  case_decide as Hi.
  - subst gameId. apply get_game_Some. rewrite Hr, Hh. split; [done|].
    by apply list_lookup_insert_eq.
  - unfold get_game. rewrite Hr, Hh.
    destruct (sprintGames st !! gameId) as [l|] eqn:Hl; [|done]. simpl.
    rewrite list_lookup_insert_ne; [done|]. intros <-.
    destruct (lc_registry _ _ HL gameId l0 Hl) as [_ (g & Hg & Hid)].
    destruct (lc_registry _ _ HL gameId0 l0 Hreg0) as [_ (g' & Hg' & Hid')].
    congruence.
Qed.

Lemma lifecycle_move used st st' gameId0 l0 g0 g0' :
  lifecycle used st →
  get_game st gameId0 = Some (l0, g0) →
  heap st' = <[l0 := g0']> (heap st) →
  sprintGames st' = sprintGames st →
  game_id g0' = game_id g0 →
  game_ok g0' →
  (status g0 = Finished → status g0' = Finished) →
  (∀ k x, timers st' !! k = Some x → (k < next_timer st')%nat) →
  (∀ k due t, timers st' !! k = Some (due, t) → timer_gid t ≠ gameId0 →
     timers st !! k = Some (due, t)) →
  (∀ k due t, timers st' !! k = Some (due, t) → timer_gid t = gameId0 →
     status g0' = timer_status t ∧ timer_fits t due l0 g0') →
  (∀ k k' due due' t t',
     timers st' !! k = Some (due, t) → timers st' !! k' = Some (due', t') →
     timer_gid t = gameId0 → timer_gid t' = gameId0 → k = k') →
  (∀ r, r ∈ sprint_results st' →
     r ∈ sprint_results st ∨ (row_game_id r = gameId0 ∧ status g0' = Finished)) →
  lifecycle used st'.
Proof.
  intros HL Hget Hh Hr Hid Hok Hfin Hids Hother Hmine Huniq Hrows.
  pose proof (get_game_move used st st' gameId0 l0 g0 g0' HL Hget Hh Hr) as Hgg.
  pose proof Hget as [Hreg0 Hg0]%get_game_Some.
  assert (Hlt : (l0 < length (heap st))%nat) by by eapply lookup_lt_Some.
  destruct (lc_registry _ _ HL gameId0 l0 Hreg0) as [Hused0 (g0x & Hg0x & Hid0)].
  assert (g0x = g0) as -> by congruence.
  constructor.
  - intros gameId l. rewrite Hr, Hh. intros Hl.
    destruct (lc_registry _ _ HL gameId l Hl) as [Hu (g & Hg & Hgid)].
    split; [done|]. destruct (decide (l = l0)) as [->|Hne].
    + exists g0'. rewrite list_lookup_insert_eq by done. split; [done|]. congruence.
    + exists g. by rewrite list_lookup_insert_ne.
  - intros l g. rewrite Hh. destruct (decide (l = l0)) as [->|Hne].
    + rewrite list_lookup_insert_eq by done. by intros [= <-].
    + rewrite list_lookup_insert_ne by done. apply (lc_objects _ _ HL).
  - exact Hids.
  - intros k due t Hk. rewrite Hgg. case_decide as Hi.
    + destruct (Hmine k due t Hk Hi) as [? ?]. by exists l0, g0'.
    + apply (lc_timer _ _ HL k). by apply Hother.
  - intros k k' due due' t t' Hk Hk' Heq.
    destruct (decide (timer_gid t = gameId0)) as [Hi|Hi].
    + eapply Huniq; [exact Hk|exact Hk'|done|congruence].
    + eapply (lc_timer_unique _ _ HL); [by apply Hother|apply Hother|done];
        [done|congruence].
  - intros r Hr'. destruct (Hrows r Hr') as [Hold|[Hi Hf]].
    + destruct (lc_rows _ _ HL r Hold) as [Hu Hfin']. split; [done|].
      intros l g. rewrite Hgg. case_decide as Hi.
      * intros [= <- <-]. apply Hfin. apply (Hfin' l0 g0). by rewrite Hi.
      * apply Hfin'.
    + rewrite Hi. split; [done|]. intros l g. rewrite Hgg.
      rewrite decide_True by done. by intros [= <- <-].
Qed.


Lemma game_ok_players ps g : game_ok g → game_ok (set_players ps g).
Proof. done. Qed.

Lemma timer_fits_players t due l ps g :
  timer_fits t due l g → timer_fits t due l (set_players ps g).
Proof. by destruct t. Qed.

Lemma only_timer used st k due t k' due' t' :
  lifecycle used st →
  timers st !! k = Some (due, t) →
  timers st !! k' = Some (due', t') →
  timer_gid t' = timer_gid t →
  k' = k.
Proof. intros HL Hk Hk' Heq. by eapply (lc_timer_unique _ _ HL). Qed.

Lemma timer_game used st k due t l g :
  lifecycle used st →
  timers st !! k = Some (due, t) →
  get_game st (timer_gid t) = Some (l, g) →
  status g = timer_status t ∧ timer_fits t due l g.
Proof.
  intros HL Hk Hget. destruct (lc_timer _ _ HL k due t Hk) as (l' & g' & Hget' & ? & ?).
  rewrite Hget in Hget'. by injection Hget' as <- <-.
Qed.

(** A change of the players map of a registered game keeps the invariant. *)
Lemma lifecycle_players used st st' gameId0 l0 g0 ps :
  lifecycle used st →
  get_game st gameId0 = Some (l0, g0) →
  heap st' = alter (set_players ps) l0 (heap st) →
  sprintGames st' = sprintGames st →
  timers st' = timers st →
  next_timer st' = next_timer st →
  sprint_results st' = sprint_results st →
  lifecycle used st'.
Proof.
  intros HL Hget Hh Hr Ht Hn Hs.
  pose proof Hget as [_ Hg0]%get_game_Some.
  rewrite (alter_at _ _ _ _ Hg0) in Hh.
  eapply (lifecycle_move used st st' gameId0 l0 g0 (set_players ps g0));
    try done.
  - apply game_ok_players. by apply (lc_objects _ _ HL l0).
  - intros k x. rewrite Ht, Hn. apply (lc_timer_ids _ _ HL).
  - intros k due t. by rewrite Ht.
  - intros k due t. rewrite Ht. intros Hk Hi. subst gameId0.
    destruct (timer_game used st k due t l0 g0 HL Hk Hget) as [? ?].
    split; [done|]. by apply timer_fits_players.
  - intros k k' due due' t t'. rewrite Ht. intros Hk Hk' Hi Hi'.
    eapply (lc_timer_unique _ _ HL); [exact Hk|exact Hk'|congruence].
  - intros r. rewrite Hs. by left.
Qed.

Lemma written_game_id ok n gameId (ps : list player) r :
  r ∈ written ok n ((λ p, ResultRow gameId None (taps p)) <$> ps) →
  row_game_id r = gameId.
Proof.
  intros Hr. eapply elem_of_sublist in Hr; [|apply written_sublist].
  apply list_elem_of_fmap in Hr as (p & -> & _). done.
Qed.

Lemma lifecycle_create used st gameId :
  lifecycle used st →
  gameId ∉ used →
  lifecycle ({[gameId]} ∪ used) (post_sprint_start gameId st).
Proof.
  intros HL Hfresh.
  assert (Hgg : ∀ i, i ∈ used →
            get_game (post_sprint_start gameId st) i = get_game st i).
  { intros i Hi. unfold get_game. simpl.
    rewrite lookup_insert_ne by (intros ->; done).
    destruct (sprintGames st !! i) as [l|] eqn:Hl; [|done]. simpl.
    destruct (lc_registry _ _ HL i l Hl) as [_ (g & Hg & _)].
    rewrite lookup_app_l; [done|]. by eapply lookup_lt_Some. }
  constructor.
  - intros i l. simpl. rewrite lookup_insert. case_decide as Hi.
    + subst i. intros [= <-]. split; [apply elem_of_union; left; by apply elem_of_singleton|].
      exists (new_game gameId). split; [|done].
      by rewrite lookup_app_r, Nat.sub_diag by lia.
    + intros Hl. destruct (lc_registry _ _ HL i l Hl) as [Hu (g & Hg & Hid)].
      split; [apply elem_of_union; by right|]. exists g. split; [|done].
      rewrite lookup_app_l; [done|]. by eapply lookup_lt_Some.
  - intros l g. simpl. destruct (decide (l < length (heap st))%nat) as [Hlt|Hge].
    + rewrite lookup_app_l by done. apply (lc_objects _ _ HL).
    + rewrite lookup_app_r by lia.
      destruct (l - length (heap st))%nat as [|n]; [|done].
      intros [= <-]. split_and!; simpl; done || lia.
  - intros k x. simpl. apply (lc_timer_ids _ _ HL).
  - intros k due t Hk. simpl in Hk.
    destruct (lc_timer _ _ HL k due t Hk) as (l & g & Hget & Hs & Hf).
    exists l, g. split; [|done]. rewrite Hgg; [done|].
    apply get_game_Some in Hget as [Hreg _].
    by destruct (lc_registry _ _ HL _ _ Hreg).
  - intros k k' due due' t t'. simpl. apply (lc_timer_unique _ _ HL).
  - intros r Hr. simpl in Hr. destruct (lc_rows _ _ HL r Hr) as [Hu Hfin].
    split; [apply elem_of_union; by right|]. intros l g.
    rewrite Hgg by done. apply Hfin.
Qed.

Lemma lifecycle_cleanup used st k due gameId :
  lifecycle used st →
  timers st !! k = Some (due, CleanupTimeout gameId) →
  lifecycle used
    (with_sprintGames (delete gameId (sprintGames st))
       (with_timers (delete k (timers st)) st)).
Proof.
  intros HL Hk.
  set (st' := with_sprintGames _ _).
  assert (Hgg : ∀ i, i ≠ gameId → get_game st' i = get_game st i).
  { intros i Hi. unfold get_game. simpl. by rewrite lookup_delete_ne. }
  assert (Hgone : get_game st' gameId = None).
  { unfold get_game. simpl. by rewrite lookup_delete_eq. }
  constructor.
  - intros i l. simpl. rewrite lookup_delete. case_decide; [done|].
    apply (lc_registry _ _ HL).
  - intros l g. simpl. apply (lc_objects _ _ HL).
  - intros k' x. simpl. rewrite lookup_delete. case_decide; [done|].
    apply (lc_timer_ids _ _ HL).
  - intros k' due' t'. simpl. rewrite lookup_delete. case_decide as Hk'; [done|].
    intros Hkt. destruct (lc_timer _ _ HL k' due' t' Hkt) as (l & g & Hget & Hs & Hf).
    exists l, g. split; [|done]. rewrite Hgg; [done|]. intros Hi.
    apply Hk'. symmetry. by eapply (only_timer used st k due _ k' due' t').
  - intros k1 k2 due1 due2 t1 t2. simpl. rewrite !lookup_delete.
    repeat case_decide; try done. apply (lc_timer_unique _ _ HL).
  - intros r Hr. simpl in Hr. destruct (lc_rows _ _ HL r Hr) as [Hu Hfin].
    split; [done|]. intros l g. destruct (decide (row_game_id r = gameId)) as [Hi|Hi].
    + rewrite Hi, Hgone. done.
    + rewrite Hgg by done. apply Hfin.
Qed.


(** Moving a registered game to its next phase: its object is replaced and
    its pending timer [k], if any, gives way to timer [n]. *)
Lemma lifecycle_retime used st st' gameId l g g' k n d tn :
  lifecycle used st →
  get_game st gameId = Some (l, g) →
  heap st' = <[l := g']> (heap st) →
  sprintGames st' = sprintGames st →
  game_id g' = game_id g →
  game_ok g' →
  (status g = Finished → status g' = Finished) →
  timers st' = <[n := (d, tn)]> (delete k (timers st)) →
  (n < next_timer st')%nat →
  (next_timer st ≤ next_timer st')%nat →
  (∀ k' due' t', timers st !! k' = Some (due', t') → timer_gid t' = gameId → k' = k) →
  timer_gid tn = gameId →
  status g' = timer_status tn →
  timer_fits tn d l g' →
  (∀ r, r ∈ sprint_results st' →
     r ∈ sprint_results st ∨ (row_game_id r = gameId ∧ status g' = Finished)) →
  lifecycle used st'.
Proof.
  intros HL Hget Hh Hr Hid Hok Hfin Ht Hn Hnext Honly Hgid Hst Hfit Hrows.
  assert (Hlook : ∀ k' due' t', timers st' !! k' = Some (due', t') →
            (k' = n ∧ due' = d ∧ t' = tn)
            ∨ (k' ≠ n ∧ k' ≠ k ∧ timers st !! k' = Some (due', t'))).
  { intros k' due' t'. rewrite Ht, lookup_insert. case_decide as Hk'.
    - intros [= <- <-]. left. by subst.
    - rewrite lookup_delete. case_decide; [done|]. intros ?. right. by split_and!. }
  eapply (lifecycle_move used st st' gameId l g g'); try done.
  - intros k' [due' t'] Hk'.
    destruct (Hlook _ _ _ Hk') as [(-> & _)|(_ & _ & Hold)]; [done|].
    pose proof (lc_timer_ids _ _ HL _ _ Hold). lia.
  - intros k' due' t' Hk' Hne.
    destruct (Hlook _ _ _ Hk') as [(-> & -> & ->)|(_ & _ & Hold)]; done.
  - intros k' due' t' Hk' Hi.
    destruct (Hlook _ _ _ Hk') as [(-> & -> & ->)|(_ & Hk & Hold)]; [done|].
    destruct Hk. by eapply Honly.
  - intros k1 k2 due1 due2 t1 t2 Hk1' Hk2' Hi1 Hi2.
    destruct (Hlook _ _ _ Hk1') as [(-> & -> & ->)|(_ & Hk1 & Hold1)];
      destruct (Hlook _ _ _ Hk2') as [(-> & -> & ->)|(_ & Hk2 & Hold2)].
    + done.
    + destruct Hk2. by eapply Honly.
    + destruct Hk1. by eapply Honly.
    + destruct Hk1. by eapply Honly.
Qed.

Lemma waiting_has_no_timer used st gameId l g k due t :
  lifecycle used st →
  get_game st gameId = Some (l, g) →
  status g = Waiting →
  timers st !! k = Some (due, t) →
  timer_gid t ≠ gameId.
Proof.
  intros HL Hget Hw Hk Hi. subst gameId.
  destruct (timer_game used st k due t l g HL Hk Hget) as [Hs _].
  rewrite Hw in Hs. by destruct t.
Qed.

Lemma next_timer_free used st :
  lifecycle used st → timers st !! next_timer st = None.
Proof.
  intros HL. destruct (timers st !! next_timer st) as [x|] eqn:Hx; [|done].
  pose proof (lc_timer_ids _ _ HL _ _ Hx). lia.
Qed.

Lemma lifecycle_fire used ok st k due t :
  lifecycle used st →
  timers st !! k = Some (due, t) →
  lifecycle used (run_timer ok k t st).
Proof.
  intros HL Hk.
  destruct (lc_timer _ _ HL k due t Hk) as (l & g & Hget & Hst & Hfit).
  pose proof Hget as [Hreg Hg]%get_game_Some.
  pose proof (lc_objects _ _ HL l g Hg) as (Hdur & Hcnt & Htimes).
  pose proof (lc_timer_ids _ _ HL _ _ Hk) as Hklt.
  assert (Honly : ∀ k' due' t', timers st !! k' = Some (due', t') →
            timer_gid t' = timer_gid t → k' = k)
    by (intros k' due' t' Hk' Hi; by eapply (only_timer used st k due t)).
  destruct t as [gameId l0|gameId|gameId]; simpl in *.
  - destruct Hfit as [-> Hc0].
    destruct (decide (1 ≤ countdown g)) as [Hc|Hc].
    + rewrite (countdown_tick_continue k gameId l st g) by (done || lia).
      apply (lifecycle_retime used st _ gameId l g
               (set_countdown (countdown g - 1) g) k k
               (now st + 1000) (CountdownInterval gameId l) HL Hget).
      * simpl. by apply alter_at.
      * done.
      * done.
      * split_and!; simpl; [done|lia|lia|]. by rewrite Hst in Htimes |- *.
      * intros Hf. congruence.
      * simpl. by rewrite insert_delete_eq.
      * done.
      * done.
      * exact Honly.
      * done.
      * done.
      * simpl. split; [done|lia].
      * intros r Hr. by left.
    + rewrite (countdown_tick_last k gameId l st g) by (done || lia).
      rewrite (startSprintGame_at gameId _ l (set_countdown (countdown g - 1) g))
        by (apply get_game_Some; simpl; by rewrite list_lookup_alter_eq, Hg).
      apply (lifecycle_retime used st _ gameId l g
               (set_times (now st) (now st + gameDuration g)
                  (set_status Active (set_countdown (countdown g - 1) g)))
               k (next_timer st)
               (now st + gameDuration g) (EndGameTimeout gameId) HL Hget).
      * simpl.
        by apply (alter_alter_at (set_countdown (countdown g - 1))
                    (λ g0, set_times (now st) (now st + gameDuration g0)
                             (set_status Active g0))).
      * done.
      * done.
      * split_and!; simpl; [done|lia|lia|]. exists (now st). by rewrite Hdur.
      * intros Hf. congruence.
      * done.
      * simpl. lia.
      * simpl. lia.
      * exact Honly.
      * done.
      * done.
      * done.
      * intros r Hr. by left.
  - rewrite (endSprintGame_at ok gameId (with_timers (delete k (timers st)) st) l g Hget).
    apply (lifecycle_retime used st _ gameId l g (set_status Finished g)
             k (next_timer st) (now st + 30000) (CleanupTimeout gameId) HL Hget).
    + simpl. by apply alter_at.
    + done.
    + done.
    + split_and!; simpl; [done|lia|lia|]. by rewrite Hst in Htimes.
    + done.
    + done.
    + simpl. lia.
    + simpl. lia.
    + exact Honly.
    + done.
    + done.
    + done.
    + simpl. intros r [Hr|Hr]%elem_of_app; [by left|]. right.
      split; [|done]. by eapply written_game_id.
  - by eapply lifecycle_cleanup.
Qed.

Lemma lifecycle_step ok used st e :
  lifecycle used st →
  (∀ gameId, e = PostSprintStart gameId → gameId ∉ used) →
  lifecycle (created e ∪ used) (step ok st e).
Proof.
  intros HL Hfresh.
  destruct e as [gameId|socket data|socket gameId|socket|ms|k]; simpl;
    rewrite ?union_empty_l_L.
  - apply lifecycle_create; [done|]. by apply Hfresh.
  - destruct (join_cases socket data st) as [Hget|l g Hget Hst|l g Hget Hst ps st4].
    + by eapply lifecycle_ext; [..|exact HL].
    + by eapply lifecycle_ext; [..|exact HL].
    + pose proof Hget as [Hreg Hg]%get_game_Some.
      pose proof (lc_objects _ _ HL l g Hg) as (Hdur & Hcnt & Htimes).
      case_decide as Hw.
      * apply (lifecycle_retime used st _ (jd_gameId data) l g
                 (set_countdown 5 (set_status Countdown (set_players ps g)))
                 (next_timer st) (next_timer st)
                 (now st + 1000) (CountdownInterval (jd_gameId data) l) HL Hget).
        -- simpl.
           by apply (alter_alter_at (set_players ps)
                       (λ g0, set_countdown 5 (set_status Countdown g0))).
        -- done.
        -- done.
        -- split_and!; simpl; [done|lia|lia|]. by rewrite Hw in Htimes.
        -- intros Hf. congruence.
        -- simpl. rewrite delete_id; [done|]. by eapply next_timer_free.
        -- simpl. lia.
        -- simpl. lia.
        -- intros k' due' t' Hk' Hi.
           by destruct (waiting_has_no_timer used st _ l g k' due' t' HL Hget Hw Hk').
        -- done.
        -- done.
        -- simpl. split; [done|lia].
        -- intros r Hr. by left.
      * by eapply (lifecycle_players used st _ (jd_gameId data) l g ps).
  - destruct (tap_cases socket gameId st) as [Hign|l g p Hget Hst Hp]; [done|].
    by eapply (lifecycle_players used st _ gameId l g).
  - destruct (disconnect_cases socket st) as [Hinfo|info Hinfo Hget|info l g Hinfo Hget].
    + by eapply lifecycle_ext; [..|exact HL].
    + by eapply lifecycle_ext; [..|exact HL].
    + by eapply (lifecycle_players used st _ (pi_gameId info) l g).
  - by eapply lifecycle_ext; [..|exact HL].
  - destruct (fire_cases ok k st) as [Hidle|due t Hk Hdue]; [done|].
    by eapply lifecycle_fire.
Qed.


Lemma lifecycle_init t0 : lifecycle ∅ (init t0).
Proof.
  constructor; simpl.
  - intros gameId l H. by rewrite lookup_empty in H.
  - intros l g H. by rewrite lookup_nil in H.
  - intros k x H. by rewrite lookup_empty in H.
  - intros k due t H. by rewrite lookup_empty in H.
  - intros k k' due due' t t' H. by rewrite lookup_empty in H.
  - intros r H. by apply elem_of_nil in H.
Qed.

Lemma lifecycle_run ok evs1 evs2 used st :
  lifecycle used st →
  fresh_ids used (evs1 ++ evs2) →
  ∃ used1, lifecycle used1 (run ok st evs1) ∧ fresh_ids used1 evs2.
Proof.
  revert used st. induction evs1 as [|e evs1 IH]; intros used st HL Hfresh.
  - by exists used.
  - rewrite run_cons. apply (IH (created e ∪ used)).
    + apply lifecycle_step; [done|]. intros gameId ->. by destruct Hfresh.
    + destruct e; simpl in *; rewrite ?union_empty_l_L; tauto.
Qed.

Lemma lifecycle_reached ok t0 evs :
  fresh_ids ∅ evs → ∃ used, lifecycle used (run ok (init t0) evs).
Proof.
  intros Hfresh.
  destruct (lifecycle_run ok evs [] ∅ (init t0) (lifecycle_init t0)) as (used & HL & _).
  - by rewrite app_nil_r.
  - by exists used.
Qed.

(** ** Phases move forward *)

Lemma status_next_refl g : status_next g g.
Proof. by left. Qed.

Lemma step_heap_Some ok st e l g :
  heap st !! l = Some g → ∃ g', heap (step ok st e) !! l = Some g'.
Proof.
  intros Hg. apply lookup_lt_is_Some.
  pose proof (step_heap_length ok st e). apply lookup_lt_Some in Hg. lia.
Qed.

Lemma step_now ok st e : now st ≤ now (step ok st e).
Proof.
  destruct e as [gameId|socket data|socket gameId|socket|ms|k]; simpl.
  - done.
  - destruct (join_cases socket data st); simpl; try done. by case_decide.
  - by destruct (tap_cases socket gameId st).
  - by destruct (disconnect_cases socket st).
  - lia.
  - destruct (fire_cases ok k st) as [Hidle|due t Hk Hdue]; [done|].
    destruct t as [gameId l0|gameId|gameId]; simpl.
    + destruct (tick_cases k gameId l0 st); simpl; try done.
      unfold startSprintGame.
      match goal with |- context [get_game ?s ?i] => destruct (get_game s i) as [[? ?]|] end;
        done.
    + unfold endSprintGame.
      match goal with |- context [get_game ?s ?i] => destruct (get_game s i) as [[? ?]|] end;
        [|done].
      by rewrite persist_players.
    + done.
Qed.

Lemma run_now ok evs st : now st ≤ now (run ok st evs).
Proof.
  revert st. induction evs as [|e evs IH]; intros st; [done|].
  rewrite run_cons. pose proof (step_now ok st e). pose proof (IH (step ok st e)). lia.
Qed.

(** One event on a game object, under the invariant: the status stays or
    moves to the next phase, the id and (while the status stays) the times
    are kept, and a game is finished only once its [endTime] is reached. *)
Lemma step_status ok used st e l g g' :
  lifecycle used st →
  heap st !! l = Some g →
  heap (step ok st e) !! l = Some g' →
  status_next g g'
  ∧ game_id g' = game_id g
  ∧ (status g' = status g → startTime g' = startTime g ∧ endTime g' = endTime g)
  ∧ (status g = Active → status g' = Finished →
     ∃ E, endTime g = Some E ∧ E ≤ now st).
Proof.
  intros HL Hg Hg'.
  assert (Hsame : g' = g →
            status_next g g' ∧ game_id g' = game_id g
            ∧ (status g' = status g →
               startTime g' = startTime g ∧ endTime g' = endTime g)
            ∧ (status g = Active → status g' = Finished →
               ∃ E, endTime g = Some E ∧ E ≤ now st)).
  { intros ->. split_and!; [by left|done|done|]. intros H1 H2. congruence. }
  assert (Hplayers : ∀ ps, g' = set_players ps g →
            status_next g g' ∧ game_id g' = game_id g
            ∧ (status g' = status g →
               startTime g' = startTime g ∧ endTime g' = endTime g)
            ∧ (status g = Active → status g' = Finished →
               ∃ E, endTime g = Some E ∧ E ≤ now st)).
  { intros ps ->. split_and!; [by left|done|done|]. simpl. intros H1 H2. congruence. }
  destruct e as [gameId|socket data|socket gameId|socket|ms|k]; simpl in Hg'.
  - rewrite lookup_app_l in Hg' by (by eapply lookup_lt_Some).
    apply Hsame. congruence.
  - destruct (join_cases socket data st) as [Hget|l0 g0 Hget Hst|l0 g0 Hget Hst ps st4];
      [apply Hsame; simpl in Hg'; congruence..|].
    pose proof Hget as [_ Hg0]%get_game_Some.
    case_decide as Hw; simpl in Hg'.
    + apply alter_lookup_inv in Hg' as (g1 & Hl & [[Hne ->]|[-> ->]]).
      * rewrite list_lookup_alter_ne in Hl by done. apply Hsame. congruence.
      * rewrite list_lookup_alter_eq, Hg in Hl. injection Hl as <-.
        assert (g0 = g) as -> by congruence.
        split_and!; simpl; [right; left; done|done|congruence|congruence].
    + apply alter_lookup_inv in Hg' as (g1 & Hl & [[Hne ->]|[-> ->]]).
      * apply Hsame. congruence.
      * assert (g1 = g) as -> by congruence. by eapply Hplayers.
  - destruct (tap_cases socket gameId st) as [Hign|l0 g0 p Hget Hst Hp];
      [apply Hsame; congruence|].
    simpl in Hg'.
    apply alter_lookup_inv in Hg' as (g1 & Hl & [[Hne ->]|[-> ->]]).
    + apply Hsame. congruence.
    + assert (g1 = g) as -> by congruence. by eapply Hplayers.
  - destruct (disconnect_cases socket st) as [Hinfo|info Hinfo Hget|info l0 g0 Hinfo Hget];
      [apply Hsame; simpl in Hg'; congruence..|].
    simpl in Hg'.
    apply alter_lookup_inv in Hg' as (g1 & Hl & [[Hne ->]|[-> ->]]).
    + apply Hsame. congruence.
    + assert (g1 = g) as -> by congruence. by eapply Hplayers.
  - apply Hsame. congruence.
  - destruct (fire_cases ok k st) as [Hidle|due t Hk Hdue]; [apply Hsame; congruence|].
    destruct (lc_timer _ _ HL k due t Hk) as (l0 & g0 & Hget & Hst & Hfit).
    pose proof Hget as [Hreg Hg0]%get_game_Some.
    destruct t as [gameId l1|gameId|gameId]; simpl in *.
    + destruct Hfit as [-> Hc0].
      destruct (decide (1 ≤ countdown g0)) as [Hc|Hc].
      * rewrite (countdown_tick_continue k gameId l0 st g0) in Hg' by (done || lia).
        simpl in Hg'.
        apply alter_lookup_inv in Hg' as (g1 & Hl & [[Hne ->]|[-> ->]]).
        -- apply Hsame. congruence.
        -- assert (g1 = g) as -> by congruence.
           split_and!; simpl; [by left|done|done|]. intros H1 H2. congruence.
      * rewrite (countdown_tick_last k gameId l0 st g0) in Hg' by (done || lia).
        rewrite (startSprintGame_at gameId _ l0 (set_countdown (countdown g0 - 1) g0))
          in Hg'
          by (apply get_game_Some; simpl; by rewrite list_lookup_alter_eq, Hg0).
        simpl in Hg'.
        apply alter_lookup_inv in Hg' as (g1 & Hl & [[Hne ->]|[-> ->]]).
        -- rewrite list_lookup_alter_ne in Hl by done. apply Hsame. congruence.
        -- rewrite list_lookup_alter_eq, Hg in Hl. injection Hl as <-.
           assert (g0 = g) as -> by congruence.
           split_and!; simpl; [right; right; left; done|done|congruence|congruence].
    + rewrite (endSprintGame_at ok gameId (with_timers (delete k (timers st)) st)
                 l0 g0 Hget) in Hg'.
      simpl in Hg'.
      apply alter_lookup_inv in Hg' as (g1 & Hl & [[Hne ->]|[-> ->]]).
      * apply Hsame. congruence.
      * assert (g1 = g) as -> by congruence. assert (g0 = g) as -> by congruence.
        split_and!; simpl; [right; right; right; done|done|congruence|].
        intros _ _. by exists due.
    + apply Hsame. congruence.
Qed.


Lemma status_next_rank g g' :
  status_next g g' → (status_rank (status g) ≤ status_rank (status g'))%nat.
Proof.
  intros [->|[[-> ->]|[[-> ->]|[-> ->]]]]; simpl; lia.
Qed.

Lemma run_status ok evs used st l g :
  lifecycle used st →
  fresh_ids used evs →
  heap st !! l = Some g →
  ∃ g', heap (run ok st evs) !! l = Some g'
        ∧ (status_rank (status g) ≤ status_rank (status g'))%nat
        ∧ game_id g' = game_id g.
Proof.
  revert used st g. induction evs as [|e evs IH]; intros used st g HL Hfresh Hg.
  - exists g. by split_and!.
  - rewrite run_cons.
    destruct (step_heap_Some ok st e l g Hg) as (g1 & Hg1).
    destruct (step_status ok used st e l g g1 HL Hg Hg1) as (Hnext & Hid & _).
    destruct (lifecycle_run ok [e] evs used st HL Hfresh) as (used1 & HL1 & Hfresh1).
    destruct (IH used1 (step ok st e) g1 HL1 Hfresh1 Hg1) as (g' & Hg' & Hrank & Hid').
    exists g'. split_and!; [done| |congruence].
    apply status_next_rank in Hnext. lia.
Qed.

(** X7.  In a run of a fresh process whose create requests never repeat an
    id, the status of a game object only moves forward: a single event
    leaves it as it is or takes it to the next phase (waiting, countdown,
    active, finished, none skipped), and over any further events it never
    returns to an earlier phase. *)
Theorem status_moves_forward (ok : nat → bool) (t0 : Z) (evs1 evs2 : list event)
    (l : nat) (g : game) :
  fresh_ids ∅ (evs1 ++ evs2) →
  heap (run ok (init t0) evs1) !! l = Some g →
  ∃ g',
    heap (run ok (init t0) (evs1 ++ evs2)) !! l = Some g'
    ∧ (status_rank (status g) ≤ status_rank (status g'))%nat
    ∧ (length evs2 = 1%nat → status_next g g').
Proof.
  intros Hfresh Hg.
  destruct (lifecycle_run ok evs1 evs2 ∅ (init t0) (lifecycle_init t0) Hfresh)
    as (used & HL & Hfresh2).
  rewrite run_app.
  destruct (run_status ok evs2 used _ l g HL Hfresh2 Hg) as (g' & Hg' & Hrank & _).
  exists g'. split_and!; [done|done|].
  intros Hlen. destruct evs2 as [|e [|? ?]]; try done.
  by destruct (step_status ok used _ e l g g' HL Hg Hg') as (? & _).
Qed.

Lemma status_moves_forward_witness :
  ∃ g',
    heap (run db_fine (init 0) ((demo_joins ++ demo_ticks) ++ demo_taps)) !! 0%nat
      = Some g'
    ∧ (status_rank (status (demo_game 0 0)) ≤ status_rank (status g'))%nat.
Proof.
  assert (Hfresh : fresh_ids ∅ ((demo_joins ++ demo_ticks) ++ demo_taps)).
  { simpl. split; [apply not_elem_of_empty|exact I]. }
  assert (Hg : heap (run db_fine (init 0) (demo_joins ++ demo_ticks)) !! 0%nat
               = Some (demo_game 0 0)) by (vm_compute; reflexivity).
  destruct (status_moves_forward db_fine 0 (demo_joins ++ demo_ticks) demo_taps
              0%nat _ Hfresh Hg) as (g' & Hg' & Hrank & _).
  exists g'. split; [exact Hg'|exact Hrank].
Defined.

(** X8.  In such a run every game object keeps its duration of 15000 ms
    and a countdown between -1 and 5; a game that is waiting or counting
    down has no start or end time, an active or finished game has both,
    15000 ms apart; and an id in the registry leads to the object created
    under that id. *)
Theorem game_fields_invariant (ok : nat → bool) (t0 : Z) (evs : list event) :
  fresh_ids ∅ evs →
  let st := run ok (init t0) evs in
  (∀ l g, heap st !! l = Some g →
     gameDuration g = 15000
     ∧ -1 ≤ countdown g ≤ 5
     ∧ (status g = Waiting ∨ status g = Countdown →
        startTime g = None ∧ endTime g = None)
     ∧ (status g = Active ∨ status g = Finished →
        ∃ s, startTime g = Some s ∧ endTime g = Some (s + 15000)))
  ∧ (∀ gameId l g, get_game st gameId = Some (l, g) → game_id g = gameId)
  ∧ (∀ gameId l, sprintGames st !! gameId = Some l → is_Some (heap st !! l)).
Proof.
  intros Hfresh st. destruct (lifecycle_reached ok t0 evs Hfresh) as (used & HL).
  fold st in HL. split_and!.
  - intros l g Hg. destruct (lc_objects _ _ HL l g Hg) as (Hd & Hc & Ht).
    split_and!; [done|lia|lia| |].
    + intros [Hs|Hs]; by rewrite Hs in Ht.
    + intros [Hs|Hs]; by rewrite Hs in Ht.
  - intros gameId l g [Hreg Hg]%get_game_Some.
    destruct (lc_registry _ _ HL gameId l Hreg) as [_ (g0 & Hg0 & Hid)]. congruence.
  - intros gameId l Hreg.
    destruct (lc_registry _ _ HL gameId l Hreg) as [_ (g0 & Hg0 & Hid)]. by exists g0.
Qed.

Lemma game_fields_invariant_witness :
  game_id (set_status Finished (demo_game 2 1)) = "g".
Proof.
  assert (Hfresh : fresh_ids ∅
            (demo_joins ++ demo_ticks ++ demo_taps ++ [Elapse 15000; Fire 1%nat])).
  { simpl. split; [apply not_elem_of_empty|exact I]. }
  assert (Hget : get_game
            (run db_fine (init 0)
               (demo_joins ++ demo_ticks ++ demo_taps ++ [Elapse 15000; Fire 1%nat]))
            "g" = Some (0%nat, set_status Finished (demo_game 2 1)))
    by (vm_compute; reflexivity).
  exact (proj1 (proj2 (game_fields_invariant db_fine 0 _ Hfresh)) "g" 0%nat _ Hget).
Defined.

(** X9.  In such a run every pending timer belongs to a registered game in
    the matching phase: a countdown interval to a game in countdown whose
    seconds are not negative (and it captured that game's object), an
    end-of-window timer to an active game and is due at its [endTime], a
    cleanup timer to a finished game.  A game never has two pending
    timers, and timer ids are below the next id to hand out. *)
Theorem timers_match_phases (ok : nat → bool) (t0 : Z) (evs : list event) :
  fresh_ids ∅ evs →
  let st := run ok (init t0) evs in
  (∀ k due gameId l, timers st !! k = Some (due, CountdownInterval gameId l) →
     ∃ g, get_game st gameId = Some (l, g) ∧ status g = Countdown ∧ 0 ≤ countdown g)
  ∧ (∀ k due gameId, timers st !! k = Some (due, EndGameTimeout gameId) →
     ∃ l g, get_game st gameId = Some (l, g) ∧ status g = Active
            ∧ endTime g = Some due)
  ∧ (∀ k due gameId, timers st !! k = Some (due, CleanupTimeout gameId) →
     ∃ l g, get_game st gameId = Some (l, g) ∧ status g = Finished)
  ∧ (∀ k k' due due' t t',
       timers st !! k = Some (due, t) → timers st !! k' = Some (due', t') →
       timer_gid t = timer_gid t' → k = k')
  ∧ (∀ k x, timers st !! k = Some x → (k < next_timer st)%nat).
Proof.
  intros Hfresh st. destruct (lifecycle_reached ok t0 evs Hfresh) as (used & HL).
  fold st in HL. split_and!.
  - intros k due gameId l Hk.
    destruct (lc_timer _ _ HL k due _ Hk) as (l' & g & Hget & Hs & [-> Hc]).
    by exists g.
  - intros k due gameId Hk.
    destruct (lc_timer _ _ HL k due _ Hk) as (l & g & Hget & Hs & Hf). by exists l, g.
  - intros k due gameId Hk.
    destruct (lc_timer _ _ HL k due _ Hk) as (l & g & Hget & Hs & Hf). by exists l, g.
  - apply (lc_timer_unique _ _ HL).
  - apply (lc_timer_ids _ _ HL).
Qed.

Lemma timers_match_phases_witness :
  (1 < next_timer (run db_fine (init 0) (demo_joins ++ demo_ticks)))%nat.
Proof.
  assert (Hfresh : fresh_ids ∅ (demo_joins ++ demo_ticks)).
  { simpl. split; [apply not_elem_of_empty|exact I]. }
  assert (Hk : timers (run db_fine (init 0) (demo_joins ++ demo_ticks)) !! 1%nat
               = Some (21000, EndGameTimeout "g")) by (vm_compute; reflexivity).
  exact (proj2 (proj2 (proj2 (proj2
    (timers_match_phases db_fine 0 _ Hfresh)))) 1%nat _ Hk).
Defined.


(** ** Timers and the clock *)

Lemma startSprintGame_timers gameId st k :
  k ≠ next_timer st →
  timers (startSprintGame gameId st) !! k = timers st !! k.
Proof.
  intros Hk. unfold startSprintGame. destruct (get_game st gameId) as [[l g]|]; [|done].
  simpl. by rewrite lookup_insert_ne.
Qed.

Lemma endSprintGame_timers ok gameId st k :
  k ≠ next_timer st →
  timers (endSprintGame ok gameId st) !! k = timers st !! k.
Proof.
  intros Hk. unfold endSprintGame. destruct (get_game st gameId) as [[l g]|]; [|done].
  rewrite persist_players. simpl. by rewrite lookup_insert_ne.
Qed.

(** No handler cancels the timer of a game: a pending timer stays as it
    is until it fires. *)
Lemma step_timer_stays ok used st e k due t :
  lifecycle used st →
  timers st !! k = Some (due, t) →
  timers (step ok st e) !! k = Some (due, t) ∨ (e = Fire k ∧ due ≤ now st).
Proof.
  intros HL Hk. pose proof (lc_timer_ids _ _ HL _ _ Hk) as Hlt.
  destruct e as [gameId|socket data|socket gameId|socket|ms|k']; simpl.
  - by left.
  - left. destruct (join_cases socket data st); simpl; try done.
    case_decide; simpl; [|done]. rewrite lookup_insert_ne; [done|lia].
  - left. by destruct (tap_cases socket gameId st).
  - left. by destruct (disconnect_cases socket st).
  - by left.
  - destruct (fire_cases ok k' st) as [Hidle|due' t' Hk' Hdue']; [by left|].
    destruct (decide (k' = k)) as [->|Hne].
    { right. split; [done|]. congruence. }
    left. destruct t' as [gameId l0|gameId|gameId]; simpl.
    + destruct (tick_cases k' gameId l0 st) as [Hd|g0 Hg0 Hc|g0 Hg0 Hc].
      * done.
      * simpl. by rewrite lookup_insert_ne.
      * rewrite startSprintGame_timers by (simpl; lia).
        simpl. by rewrite lookup_delete_ne.
    + rewrite endSprintGame_timers by (simpl; lia).
      simpl. by rewrite lookup_delete_ne.
    + simpl. by rewrite lookup_delete_ne.
Qed.

Lemma timer_pending_run ok evs used st k due t :
  lifecycle used st →
  fresh_ids used evs →
  timers st !! k = Some (due, t) →
  now (run ok st evs) < due →
  timers (run ok st evs) !! k = Some (due, t)
  ∧ ∃ used', lifecycle used' (run ok st evs).
Proof.
  revert used st. induction evs as [|e evs IH]; intros used st HL Hfresh Hk Hnow.
  - split; [done|]. by exists used.
  - rewrite run_cons in *.
    destruct (lifecycle_run ok [e] evs used st HL Hfresh) as (used1 & HL1 & Hfresh1).
    destruct (step_timer_stays ok used st e k due t HL Hk) as [Hk1|[_ Hdue]].
    + by apply (IH used1).
    + pose proof (step_now ok st e). pose proof (run_now ok evs (step ok st e)). lia.
Qed.

Lemma active_run ok evs used st l g E :
  lifecycle used st →
  fresh_ids used evs →
  heap st !! l = Some g →
  status g = Active →
  endTime g = Some E →
  now (run ok st evs) < E →
  ∃ g', heap (run ok st evs) !! l = Some g' ∧ status g' = Active
        ∧ startTime g' = startTime g ∧ endTime g' = Some E.
Proof.
  revert used st g. induction evs as [|e evs IH]; intros used st g HL Hfresh Hg Hs HE Hnow.
  - exists g. by split_and!.
  - rewrite run_cons in *.
    destruct (lifecycle_run ok [e] evs used st HL Hfresh) as (used1 & HL1 & Hfresh1).
    destruct (step_heap_Some ok st e l g Hg) as (g1 & Hg1).
    destruct (step_status ok used st e l g g1 HL Hg Hg1) as (Hnext & _ & Hkeep & Hend).
    assert (status g1 = Active) as Hs1.
    { destruct Hnext as [?|[[? _]|[[? _]|[_ Hf]]]]; try congruence.
      destruct (Hend Hs Hf) as (E' & HE' & Hle).
      pose proof (run_now ok evs (step ok st e)).
      assert (E' = E) by congruence. subst E'.
      pose proof (step_now ok st e). lia. }
    destruct Hkeep as [Hst1 Het1]; [congruence|].
    destruct (IH used1 (step ok st e) g1 HL1 Hfresh1 Hg1 Hs1) as (g' & ? & ? & ? & ?);
      [congruence|done|].
    exists g'. split_and!; [done|done|congruence|done].
Qed.

(** X10.  In a run of a fresh process without repeated ids, a game that
    is active with end time [E] is still active, with the same start and
    end time, in every later state whose clock is before [E]: no game is
    finished before its window of 15 seconds is over. *)
Theorem active_until_end_time (ok : nat → bool) (t0 : Z) (evs1 evs2 : list event)
    (l : nat) (g : game) (E : Z) :
  fresh_ids ∅ (evs1 ++ evs2) →
  heap (run ok (init t0) evs1) !! l = Some g →
  status g = Active →
  endTime g = Some E →
  now (run ok (init t0) (evs1 ++ evs2)) < E →
  startTime g = Some (E - 15000)
  ∧ ∃ g', heap (run ok (init t0) (evs1 ++ evs2)) !! l = Some g'
          ∧ status g' = Active
          ∧ startTime g' = startTime g ∧ endTime g' = Some E.
Proof.
  intros Hfresh Hg Hs HE Hnow.
  destruct (lifecycle_run ok evs1 evs2 ∅ (init t0) (lifecycle_init t0) Hfresh)
    as (used & HL & Hfresh2).
  split.
  - destruct (lc_objects _ _ HL l g Hg) as (_ & _ & Ht). rewrite Hs in Ht.
    destruct Ht as (s & Hst & Het). rewrite Hst. f_equal.
    assert (E = s + 15000) by congruence. lia.
  - rewrite run_app in *. by eapply active_run.
Qed.

Lemma active_until_end_time_witness :
  ∃ g', heap (run db_fine (init 0)
                ((demo_joins ++ demo_ticks) ++ demo_taps ++ [Elapse 14999]))
          !! 0%nat = Some g'
        ∧ status g' = Active.
Proof.
  assert (Hfresh : fresh_ids ∅
            ((demo_joins ++ demo_ticks) ++ demo_taps ++ [Elapse 14999])).
  { simpl. split; [apply not_elem_of_empty|exact I]. }
  assert (Hg : heap (run db_fine (init 0) (demo_joins ++ demo_ticks)) !! 0%nat
               = Some (demo_game 0 0)) by (vm_compute; reflexivity).
  assert (Hnow : now (run db_fine (init 0)
                        ((demo_joins ++ demo_ticks) ++ demo_taps ++ [Elapse 14999]))
                 < 21000) by (vm_compute; reflexivity).
  destruct (active_until_end_time db_fine 0 (demo_joins ++ demo_ticks)
              (demo_taps ++ [Elapse 14999]) 0%nat _ 21000 Hfresh Hg eq_refl eq_refl Hnow)
    as (_ & g' & Hg' & Hs' & _).
  exists g'. split; [exact Hg'|exact Hs'].
Defined.

(** X11.  In such a run, when the end-of-window timer of a game fires at
    time [T], the game is finished and stays in the registry, finished,
    in every later state whose clock is before [T + 30000]: the cleanup
    never comes early. *)
Theorem registered_during_grace (ok : nat → bool) (t0 : Z) (evs1 evs2 : list event)
    (k : nat) (due : Z) (gameId : string) :
  fresh_ids ∅ (evs1 ++ Fire k :: evs2) →
  let st1 := run ok (init t0) evs1 in
  let st3 := run ok (init t0) (evs1 ++ Fire k :: evs2) in
  timers st1 !! k = Some (due, EndGameTimeout gameId) →
  due ≤ now st1 →
  now st3 < now st1 + 30000 →
  ∃ l g, get_game st3 gameId = Some (l, g) ∧ status g = Finished.
Proof.
  intros Hfresh st1 st3 Hk Hdue Hnow.
  destruct (lifecycle_run ok evs1 (Fire k :: evs2) ∅ (init t0) (lifecycle_init t0) Hfresh)
    as (used & HL & Hfresh1).
  fold st1 in HL.
  destruct (lifecycle_run ok [Fire k] evs2 used st1 HL Hfresh1) as (used2 & HL2 & Hfresh2).
  destruct (lc_timer _ _ HL k due _ Hk) as (l & g & Hget & Hs & Hf). simpl in Hget.
  assert (Hk2 : timers (run ok st1 [Fire k]) !! next_timer st1
                = Some (now st1 + 30000, CleanupTimeout gameId)).
  { change (run ok st1 [Fire k]) with (fire ok k st1). unfold fire. rewrite Hk.
    destruct (Z.leb_spec due (now st1)) as [_|?]; [|lia]. simpl.
    rewrite (endSprintGame_at ok gameId (with_timers (delete k (timers st1)) st1)
               l g Hget).
    simpl. by rewrite lookup_insert_eq. }
  assert (st3 = run ok (run ok st1 [Fire k]) evs2) as Hst3.
  { unfold st3, st1. by rewrite run_app. }
  rewrite Hst3 in *.
  destruct (timer_pending_run ok evs2 used2 _ _ _ _ HL2 Hfresh2 Hk2)
    as (Hk3 & used3 & HL3).
  { assert (now (run ok st1 [Fire k]) = now st1) as Hn; [|done].
    change (run ok st1 [Fire k]) with (fire ok k st1). unfold fire. rewrite Hk.
    destruct (Z.leb_spec due (now st1)) as [_|?]; [|lia]. simpl.
    by rewrite (endSprintGame_at ok gameId (with_timers (delete k (timers st1)) st1)
                  l g Hget). }
  destruct (lc_timer _ _ HL3 _ _ _ Hk3) as (l3 & g3 & Hget3 & Hs3 & _).
  by exists l3, g3.
Qed.

Lemma registered_during_grace_witness :
  ∃ l g,
    get_game
      (run db_fine (init 0)
         ((demo_joins ++ demo_ticks ++ demo_taps ++ [Elapse 15000])
          ++ Fire 1%nat :: [Elapse 29999; Fire 2%nat]))
      "g" = Some (l, g)
    ∧ status g = Finished.
Proof.
  assert (Hfresh : fresh_ids ∅
            ((demo_joins ++ demo_ticks ++ demo_taps ++ [Elapse 15000])
             ++ Fire 1%nat :: [Elapse 29999; Fire 2%nat])).
  { simpl. split; [apply not_elem_of_empty|exact I]. }
  apply (registered_during_grace db_fine 0
           (demo_joins ++ demo_ticks ++ demo_taps ++ [Elapse 15000])
           [Elapse 29999; Fire 2%nat] 1%nat 21000 "g" Hfresh).
  - vm_compute. reflexivity.
  - vm_compute. discriminate.
  - vm_compute. reflexivity.
Defined.


(** ** Results are final *)







(** ** Rooms and rosters *)

Lemma startSprintGame_rooms gameId st : rooms (startSprintGame gameId st) = rooms st.
Proof. unfold startSprintGame. by destruct (get_game st gameId) as [[l g]|]. Qed.

Lemma endSprintGame_rooms ok gameId st : rooms (endSprintGame ok gameId st) = rooms st.
Proof.
  unfold endSprintGame. destruct (get_game st gameId) as [[l g]|]; [|done].
  by rewrite persist_players.
Qed.

Lemma countdown_tick_rooms k gameId l st : rooms (countdown_tick k gameId l st) = rooms st.
Proof.
  destruct (tick_cases k gameId l st) as [Hd|g Hg Hc|g Hg Hc]; [done|done|].
  by rewrite startSprintGame_rooms.
Qed.

Lemma room_members_rooms st st' room :
  rooms st' = rooms st → room_members st' room = room_members st room.
Proof. intros Hm. unfold room_members. by rewrite Hm. Qed.

Lemma room_members_leave socket st room s :
  s ∈ room_members (leave_all socket st) room →
  s ∈ room_members st room ∧ s ≠ socket.
Proof.
  unfold room_members, leave_all. simpl. rewrite lookup_fmap.
  destruct (rooms st !! room) as [m|]; simpl.
  - rewrite elem_of_difference, elem_of_singleton. done.
  - intros Hm. by apply not_elem_of_empty in Hm.
Qed.

(** A socket enters a room only by a join that is admitted, and every
    disconnect takes the socket out of all rooms. *)
Lemma step_rooms ok st e gameId s :
  s ∈ room_members (step ok st e) gameId →
  (s ∈ room_members st gameId ∧ e ≠ Disconnect s)
  ∨ ∃ data l g,
      e = JoinSprint s data ∧ jd_gameId data = gameId
      ∧ get_game st gameId = Some (l, g)
      ∧ (status g = Waiting ∨ status g = Countdown).
Proof.
  destruct e as [i|socket data|socket i|socket|ms|k]; simpl.
  - intros Hm. left. by split.
  - destruct (join_cases socket data st) as [Hn|l g Hg Hs|l g Hg Hs].
    + intros Hm. left. by split.
    + intros Hm. left. by split.
    + intros Hm.
      assert (s ∈ room_members
                (socket_join socket (jd_gameId data) st) gameId) as Hm'.
      { revert Hm. case_decide; unfold room_members; simpl; done. }
      destruct (decide (jd_gameId data = gameId)) as [<-|Hne].
      * rewrite room_members_join in Hm'.
        apply elem_of_union in Hm' as [->%elem_of_singleton|Hm'].
        -- right. by exists data, l, g.
        -- left. by split.
      * left. split; [|done]. revert Hm'. unfold room_members. simpl.
        by rewrite lookup_insert_ne.
  - destruct (tap_cases socket i st); intros Hm; left; by split.
  - intros Hm.
    assert (s ∈ room_members (leave_all socket st) gameId) as Hm'.
    { by destruct (disconnect_cases socket st). }
    apply room_members_leave in Hm' as [Hm' Hne].
    left. split; [done|]. intros [= ->]. done.
  - intros Hm. left. by split.
  - destruct (fire_cases ok k st) as [Hidle|due t Hk Hdue].
    + intros Hm. left. by split.
    + intros Hm. left. split; [|done]. revert Hm.
      destruct t as [i l|i|i]; simpl.
      * by rewrite (room_members_rooms st _ _ (countdown_tick_rooms k i l st)).
      * by rewrite (room_members_rooms st _ _
                      (endSprintGame_rooms ok i (with_timers (delete k (timers st)) st))).
      * done.
Qed.

Lemma join_adds_player ok socket data st l g l' g' :
  get_game st (jd_gameId data) = Some (l, g) →
  status g = Waiting ∨ status g = Countdown →
  get_game (step ok st (JoinSprint socket data)) (jd_gameId data) = Some (l', g') →
  is_Some (map_get socket (players g')).
Proof.
  intros Hget Hs. simpl.
  destruct (join_cases socket data st) as [Hn|l0 g0 Hg0 Hs0|l0 g0 Hg0 Hs0].
  - congruence.
  - assert (g0 = g) as -> by congruence. destruct Hs, Hs0; congruence.
  - assert (l0 = l ∧ g0 = g) as [-> ->] by (split; congruence).
    set (p := Player socket (display_name socket (jd_username data)) 0 true).
    pose proof (get_game_update st _ l g (set_players (map_set socket p (players g))) Hget)
      as Hg1.
    case_decide.
    + intros Hget'.
      match type of Hget' with
      | get_game (schedule _ _ (update_game _ ?f ?s)) _ = _ =>
          assert (get_game s (jd_gameId data)
                  = Some (l, set_players (map_set socket p (players g)) g)) as Hg4
            by exact Hg1;
          pose proof (get_game_update s _ l _ f Hg4) as Hg5
      end.
      assert (g' = set_countdown 5 (set_status Countdown
                     (set_players (map_set socket p (players g)) g))) as ->.
      { match type of Hg5 with
        | ?a = _ => change (a = Some (l', g')) in Hget'
        end.
        congruence. }
      simpl. rewrite map_get_set_eq. eauto.
    + intros Hget'.
      assert (g' = set_players (map_set socket p (players g)) g) as ->.
      { match type of Hg1 with
        | ?a = _ => change (a = Some (l', g')) in Hget'
        end.
        congruence. }
      simpl. rewrite map_get_set_eq. eauto.
Qed.

Lemma audience_step ok used st e :
  lifecycle used st →
  (∀ i, e = PostSprintStart i → i ∉ used) →
  audience_ok used st →
  audience_ok (created e ∪ used) (step ok st e).
Proof.
  intros HL Hfresh HA gameId s Hs.
  destruct (step_rooms ok st e gameId s Hs)
    as [[Hs0 Hne]|(data & l & g & -> & <- & Hget & Hst)].
  - destruct (HA gameId s Hs0) as [Hu Hpl].
    split; [apply elem_of_union; by right|].
    intros l g' [Hreg' Hheap']%get_game_Some.
    destruct (step_registry ok st e gameId l Hreg') as [Hreg|[-> _]];
      [|by destruct (Hfresh gameId eq_refl)].
    destruct (lc_registry _ _ HL _ _ Hreg) as (_ & g & Hheap & Hid).
    assert (get_game st gameId = Some (l, g)) as Hget
      by (by apply get_game_Some).
    pose proof (Hpl l g Hget) as Hin.
    destruct (step_heap ok st e l g' Hheap') as [[Hn _]|(g0 & Hheap0 & _ & Hmove)];
      [congruence|].
    assert (g0 = g) as -> by congruence.
    inversion Hmove as [? ? ? ? Hp _|socket data ? ? ? _ _ Hp
                        |socket i ? ? ? p _ _ _ Hp|socket ? ? ? Hp]; subst; rewrite Hp.
    + done.
    + destruct (decide (socket = s)) as [->|Hd].
      * rewrite map_get_set_eq. eauto.
      * by rewrite map_get_set_ne.
    + destruct (decide (socket = s)) as [->|Hd].
      * rewrite map_get_set_eq. eauto.
      * by rewrite map_get_set_ne.
    + rewrite map_get_delete_ne; [done|]. intros ->. done.
  - split.
    + apply elem_of_union. right.
      apply get_game_Some in Hget as [Hreg _].
      by destruct (lc_registry _ _ HL _ _ Hreg).
    + intros l' g' Hget'.
      exact (join_adds_player ok s data st l g l' g' Hget Hst Hget').
Qed.

Lemma audience_run ok evs used st :
  lifecycle used st →
  audience_ok used st →
  fresh_ids used evs →
  ∃ used', audience_ok used' (run ok st evs).
Proof.
  revert used st. induction evs as [|e evs IH]; intros used st HL HA Hfresh.
  - by exists used.
  - rewrite run_cons.
    assert (Hnew : ∀ i, e = PostSprintStart i → i ∉ used).
    { intros i ->. by destruct Hfresh. }
    apply (IH (created e ∪ used)).
    + by apply lifecycle_step.
    + by apply audience_step.
    + destruct e; simpl in *; rewrite ?union_empty_l_L; tauto.
Qed.

(** X13.  In a run of a fresh process without repeated ids, every socket
    in the room of a registered game is a key of that game's players map:
    whoever receives the broadcasts of a game is on its roster. *)
Theorem audience_are_players (ok : nat → bool) (t0 : Z) (evs : list event)
    (gameId s : string) (l : nat) (g : game) :
  fresh_ids ∅ evs →
  s ∈ room_members (run ok (init t0) evs) gameId →
  get_game (run ok (init t0) evs) gameId = Some (l, g) →
  is_Some (map_get s (players g)).
Proof.
  intros Hfresh Hs Hget.
  destruct (audience_run ok evs ∅ (init t0) (lifecycle_init t0)) as (used & HA).
  - intros i c Hc. by apply not_elem_of_empty in Hc.
  - done.
  - destruct (HA gameId s Hs) as [_ Hpl]. by eapply Hpl.
Qed.

Lemma audience_are_players_witness :
  is_Some (map_get "bob" (players (demo_game 0 0))).
Proof.
  assert (Hfresh : fresh_ids ∅ (demo_joins ++ demo_ticks)).
  { simpl. split; [apply not_elem_of_empty|exact I]. }
  apply (audience_are_players db_fine 0 (demo_joins ++ demo_ticks) "g" "bob" 0%nat _ Hfresh).
  - vm_compute. reflexivity.
  - vm_compute. reflexivity.
Defined.

(** X14.  In every reachable state, the players of a game that is
    waiting or counting down all have zero taps: taps sent before the
    start signal are never counted, and everybody starts the window from
    zero. *)
Theorem no_taps_before_start (ok : nat → bool) (t0 : Z) (evs : list event)
    (l : nat) (g : game) (socket : string) (p : player) :
  heap (run ok (init t0) evs) !! l = Some g →
  status g = Waiting ∨ status g = Countdown →
  map_get socket (players g) = Some p →
  taps p = 0.
Proof.
  intros Hg Hs Hp.
  pose proof (count_inv_run ok evs (init t0) _ (count_inv_init t0) l) as Hinv.
  simpl in Hinv. rewrite Hg in Hinv. destruct Hinv as (_ & Hzero & Htaps).
  rewrite (Htaps socket p Hp). by apply Hzero.
Qed.

Lemma no_taps_before_start_witness :
  taps (Player "alice" "alice" 0 true) = 0.
Proof.
  eapply (no_taps_before_start db_fine 0
            (demo_joins ++ [Tap "alice" "g"; Elapse 1000; Fire 0%nat; Tap "alice" "g"])
            0%nat _ "alice").
  - vm_compute. reflexivity.
  - right. reflexivity.
  - vm_compute. reflexivity.
Defined.
